(** * Retention enforcement, row identity and the debug statistics endpoint

    A shallow embedding of the retention service (package [retention]),
    of [models.Row] and of the [/debug/vars] handler (package [debug]),
    with the properties their specification states about them. *)

From stdpp Require Import base list gmap strings sorting.
From Stdlib Require Import ZArith OrderedTypeEx.

Local Open Scope string_scope.
Local Open Scope list_scope.
Local Open Scope stdpp_scope.

(** Go's [uint64] identifiers are only compared and used as map keys, never
    computed with, so they are naturals; [time.Time] and [time.Duration] are
    integer nanosecond counts; an [error] is its message, [nil] is [None]. *)
Abbreviation uint64 := N.
Abbreviation Time := Z.
Abbreviation Duration := Z.
Abbreviation error := string.

(** ** Package [meta]: the metadata the sweeps traverse *)

Module Meta.

(** Modelled from the spec: [meta.ShardInfo] is declared outside the given
    sources; the specification describes it as "an identifier". *)
Record ShardInfo := { sh_ID : uint64 }.

(** Modelled from the spec: [meta.ShardGroupInfo], "an identifier and a set
    of ShardInfo belonging to it", with the end time the expiry predicate
    reads and the mark of a group "already marked deleted in metadata". *)
Record ShardGroupInfo := {
  sg_ID : uint64;
  sg_EndTime : Time;
  sg_Deleted : bool;
  sg_Shards : list ShardInfo
}.

(** Modelled from the spec: [meta.RetentionPolicyInfo], "a name, a retention
    duration, and a set of ShardGroupInfo". *)
Record RetentionPolicyInfo := {
  rp_Name : string;
  rp_Duration : Duration;
  rp_ShardGroups : list ShardGroupInfo
}.

(** Modelled from the spec: [meta.DatabaseInfo], "a name and an
    ordered-irrelevant set of RetentionPolicyInfo". *)
Record DatabaseInfo := {
  db_Name : string;
  db_RetentionPolicies : list RetentionPolicyInfo
}.

(** Modelled from the spec: the expiry predicate of
    [RetentionPolicyInfo.ExpiredShardGroups], "shard group end time + policy
    duration <= now", on a group that is "still metadata-present". *)
Definition expired (r : RetentionPolicyInfo) (t : Time) (g : ShardGroupInfo) : bool :=
  negb (sg_Deleted g) && (sg_EndTime g + rp_Duration r <=? t)%Z.

(** Modelled from the spec: [RetentionPolicyInfo.ExpiredShardGroups], "the
    subset of shard groups whose end time plus retention duration has
    passed (expired, still metadata-present)". *)
Definition ExpiredShardGroups (r : RetentionPolicyInfo) (t : Time) : list ShardGroupInfo :=
  List.filter (expired r t) (rp_ShardGroups r).

(** Modelled from the spec: [RetentionPolicyInfo.DeletedShardGroups], "the
    subset already marked deleted in metadata (deleted shard groups, whose
    shards are now orphaned)". *)
Definition DeletedShardGroups (r : RetentionPolicyInfo) : list ShardGroupInfo :=
  List.filter sg_Deleted (rp_ShardGroups r).

End Meta.

(** ** Package [retention]: the two sweeps *)

Module Retention.
Import Meta.

(** The lines the sweeps print through [s.logger], by format string. *)
Inductive LogLine :=
| LogFailedDeleteShardGroup (id : uint64) (db rp : string) (err : error)
    (* "failed to delete shard group %d from database %s, retention policy %s: %s" *)
| LogDeletedShardGroup (id : uint64) (db rp : string)
    (* "deleted shard group %d from database %s, retention policy %s" *)
| LogShardDeletionCheck
    (* "retention policy shard deletion check commencing" *)
| LogFailedDeleteShard (id : uint64) (db rp : string) (err : error)
    (* "failed to delete shard ID %d from database %s, retention policy %s: %s" *)
| LogShardDeleted (id : uint64) (db rp : string)
    (* "shard ID %d from database %s, retention policy %s, deleted" *)
| LogStarting (checkInterval : Duration)
    (* "Starting retention policy enforcement service with check interval of" *)
| LogTerminating.
    (* "retention policy enforcement terminating" *)

(** What a sweep does to the outside, in the order it does it: the calls on
    the two collaborators with their arguments (the deletions also with the
    error they returned), the readings of the wall clock and the log lines. *)
Inductive Event :=
| EvDatabases
| EvDeleteShardGroup (database policy : string) (id : uint64) (err : option error)
| EvShardIDs
| EvDeleteShard (shardID : uint64) (err : option error)
| EvNow (t : Time)
| EvLog (l : LogLine).

#[global] Instance LogLine_eq_dec : EqDecision LogLine.
Proof. solve_decision. Defined.

#[global] Instance Event_eq_dec : EqDecision Event.
Proof. solve_decision. Defined.

(** The [MetaClient] field of [Service]: an interface over a hidden state. *)
Class MetaClient (M : Type) := {
  Databases : M -> list DatabaseInfo * M;
  DeleteShardGroup : string -> string -> uint64 -> M -> option error * M
}.

(** The [TSDBStore] field of [Service]. *)
Class TSDBStore (T : Type) := {
  ShardIDs : T -> list uint64 * T;
  DeleteShard : uint64 -> T -> option error * T
}.

(** The wall clock behind [time.Now()]: each reading may move it. *)
Class Clock (C : Type) := {
  Now : C -> Time * C
}.

(** [deletionInfo], the struct local to [deleteShards]. *)
Record deletionInfo := { db : string; rp : string }.

#[global] Instance deletionInfo_eq_dec : EqDecision deletionInfo.
Proof. solve_decision. Defined.

Section Sweeps.
Context {M T C : Type} `{MetaClient M} `{TSDBStore T} `{Clock C}.

(** Everything a sweep can read or change. *)
Record World := {
  meta : M;
  store : T;
  wall : C
}.

(** A sweep threads the world and emits events. *)
Definition Sweep (A : Type) : Type := World -> A * World * list Event.

Definition ret {A} (a : A) : Sweep A := fun w => (a, w, []).

Definition bind {A B} (m : Sweep A) (k : A -> Sweep B) : Sweep B :=
  fun w =>
    let '(a, w1, e1) := m w in
    let '(b, w2, e2) := k a w1 in
    (b, w2, e1 ++ e2).

Notation "x <- m ;; k" := (bind m (fun x => k))
  (at level 100, m at next level, right associativity).
Notation "m ;;; k" := (bind m (fun _ => k))
  (at level 100, right associativity).

(** [for _, x := range l { body }] *)
Fixpoint forEach {A} (l : list A) (body : A -> Sweep unit) : Sweep unit :=
  match l with
  | [] => ret tt
  | x :: l' => body x ;;; forEach l' body
  end.

Definition events {A} (m : Sweep A) (w : World) : list Event := (m w).2.
Definition final {A} (m : Sweep A) (w : World) : World := (m w).1.2.

(** [s.MetaClient.Databases()] *)
Definition MetaClient_Databases : Sweep (list DatabaseInfo) :=
  fun w =>
    let '(dbs, m) := Databases (meta w) in
    (dbs, {| meta := m; store := store w; wall := wall w |}, [EvDatabases]).

(** [s.MetaClient.DeleteShardGroup(database, policy, id)] *)
Definition MetaClient_DeleteShardGroup (database policy : string) (id : uint64)
  : Sweep (option error) :=
  fun w =>
    let '(err, m) := DeleteShardGroup database policy id (meta w) in
    (err, {| meta := m; store := store w; wall := wall w |},
     [EvDeleteShardGroup database policy id err]).

(** [s.TSDBStore.ShardIDs()] *)
Definition TSDBStore_ShardIDs : Sweep (list uint64) :=
  fun w =>
    let '(ids, t) := ShardIDs (store w) in
    (ids, {| meta := meta w; store := t; wall := wall w |}, [EvShardIDs]).

(** [s.TSDBStore.DeleteShard(shardID)] *)
Definition TSDBStore_DeleteShard (shardID : uint64) : Sweep (option error) :=
  fun w =>
    let '(err, t) := DeleteShard shardID (store w) in
    (err, {| meta := meta w; store := t; wall := wall w |}, [EvDeleteShard shardID err]).

(** [time.Now().UTC()] *)
Definition time_Now : Sweep Time :=
  fun w =>
    let '(t, c) := Now (wall w) in
    (t, {| meta := meta w; store := store w; wall := c |}, [EvNow t]).

(** [s.logger.Printf(...)] and [s.logger.Println(...)] *)
Definition logger_Print (l : LogLine) : Sweep unit :=
  fun w => (tt, w, [EvLog l]).

(** [func (s *Service) deleteShardGroups()] *)
Definition deleteShardGroups : Sweep unit :=
  dbs <- MetaClient_Databases ;;
  forEach dbs (fun d =>
    forEach (db_RetentionPolicies d) (fun r =>
      now <- time_Now ;;
      forEach (ExpiredShardGroups r now) (fun g =>
        err <- MetaClient_DeleteShardGroup (db_Name d) (rp_Name r) (sg_ID g) ;;
        match err with
        | Some e =>
            logger_Print (LogFailedDeleteShardGroup (sg_ID g) (db_Name d) (rp_Name r) e)
        | None =>
            logger_Print (LogDeletedShardGroup (sg_ID g) (db_Name d) (rp_Name r))
        end))).

(** The four nested loops of [deleteShards] that fill the local map
    [deletedShardIDs], starting from the empty map of [make]. *)
Definition deletedShardIDs (dbs : list DatabaseInfo) : gmap N deletionInfo :=
  fold_left (fun m d =>
    fold_left (fun m r =>
      fold_left (fun m g =>
        fold_left (fun m sh =>
          <[sh_ID sh := {| db := db_Name d; rp := rp_Name r |}]> m)
          (sg_Shards g) m)
        (DeletedShardGroups r) m)
      (db_RetentionPolicies d) m)
    dbs ∅.

(** [func (s *Service) deleteShards()] *)
Definition deleteShards : Sweep unit :=
  logger_Print LogShardDeletionCheck ;;;
  dbs <- MetaClient_Databases ;;
  let deleted := deletedShardIDs dbs in
  ids <- TSDBStore_ShardIDs ;;
  forEach ids (fun id =>
    match deleted !! id with
    | Some di =>
        err <- TSDBStore_DeleteShard id ;;
        match err with
        | Some e => logger_Print (LogFailedDeleteShard id (db di) (rp di) e)
        | None => logger_Print (LogShardDeleted id (db di) (rp di))
        end
    | None => ret tt
    end).

(** *** What the statements below observe of a sweep *)

(** The arguments of the [DeleteShardGroup] calls among [evs], in order. *)
Definition deleteShardGroupCalls (evs : list Event) : list (string * string * N) :=
  omap (fun e =>
    match e with EvDeleteShardGroup d p i _ => Some (d, p, i) | _ => None end) evs.

(** How many times [DeleteShardGroup(d, p, i)] is called among [evs]. *)
Definition timesDeleteShardGroup (d p : string) (i : N) (evs : list Event) : nat :=
  length (filter (fun k => k = (d, p, i)) (deleteShardGroupCalls evs)).

(** The arguments of the [DeleteShard] calls among [evs], in order. *)
Definition deleteShardCalls (evs : list Event) : list N :=
  omap (fun e => match e with EvDeleteShard i _ => Some i | _ => None end) evs.

(** How many times [DeleteShard(S)] is called among [evs]. *)
Definition timesDeleteShard (S : N) (evs : list Event) : nat :=
  length (filter (fun i => i = S) (deleteShardCalls evs)).

(** What follows the three opening events of [deleteShards]: [DeleteShard]
    calls and log lines only. *)
Definition shardLoopEvent (e : Event) : Prop :=
  match e with EvDeleteShard _ _ | EvLog _ => True | _ => False end.

(** Whether [e] is a call on the shard store. *)
Definition isStoreCall (e : Event) : bool :=
  match e with EvShardIDs | EvDeleteShard _ _ => true | _ => false end.

(** Whether [e] is a call on either collaborator. *)
Definition isCollaboratorCall (e : Event) : bool :=
  match e with
  | EvDatabases | EvDeleteShardGroup _ _ _ _ | EvShardIDs | EvDeleteShard _ _ => true
  | EvNow _ | EvLog _ => false
  end.

(** Every (database, policy) pair of the metadata, in traversal order. *)
Definition policies (dbs : list DatabaseInfo) : list (DatabaseInfo * RetentionPolicyInfo) :=
  d ← dbs; (fun r => (d, r)) <$> db_RetentionPolicies d.

(** The triple that identifies a shard group to [DeleteShardGroup]. *)
Definition groupKey (d : DatabaseInfo) (r : RetentionPolicyInfo) (g : ShardGroupInfo)
  : string * string * N :=
  (db_Name d, rp_Name r, sg_ID g).

(** The identifying triples of all shard groups of the metadata. *)
Definition groupKeys (dbs : list DatabaseInfo) : list (string * string * N) :=
  '(d, r) ← policies dbs; groupKey d r <$> rp_ShardGroups r.

(** The readings of the clock [deleteShardGroups] takes while it walks the
    policies of one database: one [time.Now()] per policy. *)
Fixpoint visitPolicies (d : DatabaseInfo) (rps : list RetentionPolicyInfo) (c : C)
  : list (DatabaseInfo * RetentionPolicyInfo * Time) * C :=
  match rps with
  | [] => ([], c)
  | r :: rps' =>
      let '(t, c1) := Now c in
      let '(vs, c2) := visitPolicies d rps' c1 in
      ((d, r, t) :: vs, c2)
  end.

(** The same over all databases: each policy with the sweep time at which
    its expired set is computed. *)
Fixpoint policyVisits (dbs : list DatabaseInfo) (c : C)
  : list (DatabaseInfo * RetentionPolicyInfo * Time) :=
  match dbs with
  | [] => []
  | d :: dbs' =>
      let '(vs, c1) := visitPolicies d (db_RetentionPolicies d) c in
      vs ++ policyVisits dbs' c1
  end.

(** The shard groups a sweep over these visits finds expired, by their
    identifying triples: for each policy, its expired set at the time of
    its visit. *)
Definition expiredAt (visits : list (DatabaseInfo * RetentionPolicyInfo * Time))
  : list (string * string * N) :=
  '(d, r, t) ← visits; groupKey d r <$> ExpiredShardGroups r t.

(** Every shard group met during these visits, by its identifying triple,
    with whether it is expired at the time of the visit. *)
Definition groupVerdicts (visits : list (DatabaseInfo * RetentionPolicyInfo * Time))
  : list (string * string * N * bool) :=
  '(d, r, t) ← visits; (fun g => (groupKey d r g, expired r t g)) <$> rp_ShardGroups r.

(** What follows [Databases()] in [deleteShardGroups]: clock readings,
    [DeleteShardGroup] calls and log lines only. *)
Definition groupLoopEvent (e : Event) : Prop :=
  match e with EvNow _ | EvDeleteShardGroup _ _ _ _ | EvLog _ => True | _ => False end.

(** The entries [deleteShards] stores into [deletedShardIDs], in the order
    of its four loops. *)
Definition orphanEntries (dbs : list DatabaseInfo) : list (N * deletionInfo) :=
  '(d, r) ← policies dbs;
  g ← DeletedShardGroups r;
  (fun sh => (sh_ID sh, {| db := db_Name d; rp := rp_Name r |})) <$> sg_Shards g.

(** The listed shard IDs that [deleteShards] finds in its map. *)
Definition orphansAmong (dbs : list DatabaseInfo) (ids : list N) : list N :=
  filter (fun id => is_Some (deletedShardIDs dbs !! id)) ids.

(** A shard ID that belongs to a shard group the metadata reports as
    deleted. *)
Definition orphanCandidate (dbs : list DatabaseInfo) (S : N) : Prop :=
  exists d r g sh,
    d ∈ dbs /\ r ∈ db_RetentionPolicies d /\ g ∈ DeletedShardGroups r /\
    sh ∈ sg_Shards g /\ sh_ID sh = S.

(** *** The service: two loops, the shutdown signal and the debug hook *)

(** The two reaper loops, [serviceDeleteShardGroups] and
    [serviceDeleteShards]; each has its own ticker and its own force
    channel, [forceDeleteShardGroups] and [forceDeleteShards]. *)
Inductive Reaper := ShardGroups | Shards.

#[global] Instance Reaper_eq_dec : EqDecision Reaper.
Proof. solve_decision. Defined.

(** Where the goroutine of a loop stands. *)
Inductive LoopPC :=
| NotStarted   (* [Open] has not reached its [go] statement *)
| Started      (* spawned; [defer s.wg.Done()] and [time.NewTicker] ahead *)
| Selecting    (* blocked in the three-way [select] *)
| Sweeping     (* inside [s.deleteShardGroups()] or [s.deleteShards()] *)
| Exited.      (* returned: [ticker.Stop()] and [s.wg.Done()] have run *)

#[global] Instance LoopPC_eq_dec : EqDecision LoopPC.
Proof. solve_decision. Defined.

(** A [Service] value together with the goroutines that run on it. A request
    to the debug endpoint is the list of channel sends its handler still has
    to do. *)
Record Service := {
  world : World;                  (* [MetaClient], [TSDBStore] and the clock *)
  checkInterval : Duration;
  done : bool;                    (* [s.done] has been closed *)
  wg : Z;                         (* the counter of [s.wg] *)
  loopShardGroups : LoopPC;
  loopShards : LoopPC;
  tickShardGroups : bool;         (* a tick waits in the ticker's channel *)
  tickShards : bool;
  handlers : list (list Reaper);
  closing : bool;                 (* a [Close] call is inside [s.wg.Wait()] *)
  closed : nat;                   (* [Close] calls that have returned *)
  panicked : bool;                (* an unrecovered panic ended the process *)
  trace : list Event
}.

Definition loop (r : Reaper) (s : Service) : LoopPC :=
  match r with ShardGroups => loopShardGroups s | Shards => loopShards s end.

Definition tick (r : Reaper) (s : Service) : bool :=
  match r with ShardGroups => tickShardGroups s | Shards => tickShards s end.

Definition set_loop (r : Reaper) (pc : LoopPC) (s : Service) : Service :=
  {| world := world s; checkInterval := checkInterval s; done := done s; wg := wg s;
     loopShardGroups := if r is ShardGroups then pc else loopShardGroups s;
     loopShards := if r is Shards then pc else loopShards s;
     tickShardGroups := tickShardGroups s; tickShards := tickShards s;
     handlers := handlers s; closing := closing s; closed := closed s;
     panicked := panicked s; trace := trace s |}.

Definition set_tick (r : Reaper) (b : bool) (s : Service) : Service :=
  {| world := world s; checkInterval := checkInterval s; done := done s; wg := wg s;
     loopShardGroups := loopShardGroups s; loopShards := loopShards s;
     tickShardGroups := if r is ShardGroups then b else tickShardGroups s;
     tickShards := if r is Shards then b else tickShards s;
     handlers := handlers s; closing := closing s; closed := closed s;
     panicked := panicked s; trace := trace s |}.

Definition set_handlers (hs : list (list Reaper)) (s : Service) : Service :=
  {| world := world s; checkInterval := checkInterval s; done := done s; wg := wg s;
     loopShardGroups := loopShardGroups s; loopShards := loopShards s;
     tickShardGroups := tickShardGroups s; tickShards := tickShards s;
     handlers := hs; closing := closing s; closed := closed s;
     panicked := panicked s; trace := trace s |}.

Definition set_wg (n : Z) (s : Service) : Service :=
  {| world := world s; checkInterval := checkInterval s; done := done s; wg := n;
     loopShardGroups := loopShardGroups s; loopShards := loopShards s;
     tickShardGroups := tickShardGroups s; tickShards := tickShards s;
     handlers := handlers s; closing := closing s; closed := closed s;
     panicked := panicked s; trace := trace s |}.

Definition set_close (d c : bool) (n : nat) (s : Service) : Service :=
  {| world := world s; checkInterval := checkInterval s; done := d; wg := wg s;
     loopShardGroups := loopShardGroups s; loopShards := loopShards s;
     tickShardGroups := tickShardGroups s; tickShards := tickShards s;
     handlers := handlers s; closing := c; closed := n;
     panicked := panicked s; trace := trace s |}.

Definition panic (s : Service) : Service :=
  {| world := world s; checkInterval := checkInterval s; done := done s; wg := wg s;
     loopShardGroups := loopShardGroups s; loopShards := loopShards s;
     tickShardGroups := tickShardGroups s; tickShards := tickShards s;
     handlers := handlers s; closing := closing s; closed := closed s;
     panicked := true; trace := trace s |}.

(** Run a sweep on the service's collaborators and append what it did. *)
Definition perform (m : Sweep unit) (s : Service) : Service :=
  {| world := final m (world s); checkInterval := checkInterval s; done := done s;
     wg := wg s;
     loopShardGroups := loopShardGroups s; loopShards := loopShards s;
     tickShardGroups := tickShardGroups s; tickShards := tickShards s;
     handlers := handlers s; closing := closing s; closed := closed s;
     panicked := panicked s; trace := trace s ++ events m (world s) |}.

(** [func NewService(c Config) *Service], on the given collaborators: an
    open [done] channel, a zero wait group, no goroutine yet. *)
Definition NewService (c_CheckInterval : Duration) (w : World) : Service :=
  {| world := w; checkInterval := c_CheckInterval; done := false; wg := 0;
     loopShardGroups := NotStarted; loopShards := NotStarted;
     tickShardGroups := false; tickShards := false;
     handlers := []; closing := false; closed := 0;
     panicked := false; trace := [] |}.

(** [func (s *Service) Open() error]: the log line, [s.wg.Add(2)] and the
    two [go] statements. *)
Definition Open (s : Service) : Service :=
  set_loop Shards Started
    (set_loop ShardGroups Started
      (set_wg (wg s + 2)
        (perform (logger_Print (LogStarting (checkInterval s))) s))).

(** [s.wg.Done()]: the counter goes down by one; going below zero panics. *)
Definition wg_Done (s : Service) : Service :=
  if (wg s - 1 <? 0)%Z then panic s else set_wg (wg s - 1) s.

(** The first half of [func (s *Service) Close() error]: the log line and
    [close(s.done)], which panics on a channel that is already closed; the
    call then waits in [s.wg.Wait()]. *)
Definition Close_call (s : Service) : Service :=
  let s1 := perform (logger_Print LogTerminating) s in
  if done s1 then panic s1 else set_close true true (closed s1) s1.

(** The handler [AddDebugHandler] registers: it sends on
    [s.forceDeleteShardGroups] and then on [s.forceDeleteShards]. *)
Definition enforce_retention : list Reaper := [ShardGroups; Shards].

(** [func (s *Service) AddDebugHandler(pmux)]: the routes it adds, each with
    its method, its pattern and the sends of its handler. *)
Definition AddDebugHandler : list (string * string * list Reaper) :=
  [("POST", "/debug/enforce_retention", enforce_retention)].

(** The moves of the goroutine of a loop. *)
Inductive LoopMove :=
| MvEnter            (* [defer s.wg.Done()]; [time.NewTicker]; [defer ticker.Stop()] *)
| MvForce (i : nat)  (* [select] takes the force case: it receives from handler [i] *)
| MvTicker           (* [select] takes [case <-ticker.C] *)
| MvSweep            (* the sweep that the case calls runs and returns *)
| MvReturn.          (* [select] takes [case <-s.done]: [return] *)

(** The body shared, word for word, by [serviceDeleteShardGroups] and
    [serviceDeleteShards]: [r] names the loop with its ticker and its force
    channel, [sweep] is the function both sweeping cases call. [None] when
    the goroutine is elsewhere or the case is not ready. Channels are
    unbuffered, so a send and the matching receive are one move. *)
Definition serviceLoop (r : Reaper) (sweep : Sweep unit) (mv : LoopMove) (s : Service)
  : option Service :=
  match mv, loop r s with
  | MvEnter, Started =>
      (* [time.NewTicker] panics on a non-positive interval *)
      if (checkInterval s <=? 0)%Z then Some (panic s)
      else Some (set_loop r Selecting s)
  | MvForce i, Selecting =>
      match handlers s !! i with
      | Some (r' :: rest) =>
          if bool_decide (r' = r)
          then Some (set_loop r Sweeping (set_handlers (<[i := rest]> (handlers s)) s))
          else None
      | _ => None
      end
  | MvTicker, Selecting =>
      if tick r s then Some (set_loop r Sweeping (set_tick r false s)) else None
  | MvSweep, Sweeping => Some (set_loop r Selecting (perform sweep s))
  | MvReturn, Selecting =>
      if done s then Some (wg_Done (set_loop r Exited s)) else None
  | _, _ => None
  end.

(** [func (s *Service) serviceDeleteShardGroups()] *)
Definition serviceDeleteShardGroups : LoopMove -> Service -> option Service :=
  serviceLoop ShardGroups deleteShardGroups.

(** [func (s *Service) serviceDeleteShards()] *)
Definition serviceDeleteShards : LoopMove -> Service -> option Service :=
  serviceLoop Shards deleteShards.

(** The second half of [Close]: [s.wg.Wait()] returns once the counter is
    zero, and [Close] returns [nil]. *)
Definition Close_return (s : Service) : option Service :=
  if closing s && (wg s =? 0)%Z
  then Some (set_close (done s) false (S (closed s)) s)
  else None.

(** What can happen next to a service. *)
Inductive Action :=
| ActLoop (r : Reaper) (mv : LoopMove)  (* the goroutine of loop [r] moves *)
| ActTick (r : Reaper)                  (* the ticker of loop [r] fires *)
| ActRequest                            (* a request to the debug endpoint arrives *)
| ActClose                              (* [Close] is called, up to [s.wg.Wait()] *)
| ActCloseReturn.                       (* [s.wg.Wait()] and [Close] return *)

(** One step; [None] when the action cannot happen in [s]. After a panic
    nothing happens: the process is gone. *)
Definition step (a : Action) (s : Service) : option Service :=
  if panicked s then None else
  match a with
  | ActLoop ShardGroups mv => serviceDeleteShardGroups mv s
  | ActLoop Shards mv => serviceDeleteShards mv s
  | ActTick r =>
      match loop r s with
      | Selecting | Sweeping => Some (set_tick r true s)
      | _ => None
      end
  | ActRequest => Some (set_handlers (handlers s ++ [enforce_retention]) s)
  | ActClose => Some (Close_call s)
  | ActCloseReturn => Close_return s
  end.

(** A run: the actions happen one after the other. *)
Fixpoint run (acts : list Action) (s : Service) : option Service :=
  match acts with
  | [] => Some s
  | a :: acts' =>
      match step a s with
      | Some s' => run acts' s'
      | None => None
      end
  end.

(** The states of a service that was created, opened and then left to its
    goroutines, its tickers, the debug endpoint and its closer. *)
Definition reachable (s : Service) : Prop :=
  exists interval w acts, run acts (Open (NewService interval w)) = Some s.

(** The calls on the collaborators among the events. *)
Definition collaboratorCalls (evs : list Event) : list Event :=
  List.filter isCollaboratorCall evs.

(** What a goroutine at [pc] still owes to the wait group. *)
Definition owes (pc : LoopPC) : Z :=
  match pc with
  | Started | Selecting | Sweeping => 1
  | NotStarted | Exited => 0
  end.

(** What holds of an opened service at every moment: a returned [Close] has
    seen both loops exit; a [Close] that got past [close(s.done)] left the
    channel closed; and, as long as nothing has panicked, the wait group
    counts the loops that have not returned. *)
Definition lifecycle_inv (s : Service) : Prop :=
  (0 < closed s -> loop ShardGroups s = Exited /\ loop Shards s = Exited) /\
  (closing s = true \/ 0 < closed s -> done s = true) /\
  (panicked s = false ->
     wg s = (owes (loop ShardGroups s) + owes (loop Shards s))%Z /\
     loop ShardGroups s <> NotStarted /\ loop Shards s <> NotStarted).

(** How many times [Close] is called in a run. *)
Fixpoint closeCalls (acts : list Action) : nat :=
  match acts with
  | [] => 0
  | ActClose :: acts' => S (closeCalls acts')
  | _ :: acts' => closeCalls acts'
  end.

(** The moves that take the goroutine of loop [r] from [pc] to its return,
    once [s.done] is closed. *)
Definition leave (r : Reaper) (pc : LoopPC) : list Action :=
  match pc with
  | Started => [ActLoop r MvEnter; ActLoop r MvReturn]
  | Selecting => [ActLoop r MvReturn]
  | Sweeping => [ActLoop r MvSweep; ActLoop r MvReturn]
  | NotStarted | Exited => []
  end.

(** A run that shuts the service down from [s]: [Close] is called unless a
    call already waits, each loop finishes what it is doing and takes the
    [done] case, and [Close] returns. *)
Definition shutdownPlan (s : Service) : list Action :=
  (if done s then [] else [ActClose]) ++
  leave ShardGroups (loop ShardGroups s) ++
  leave Shards (loop Shards s) ++
  [ActCloseReturn].

End Sweeps.

Arguments World : clear implicits.
Arguments Service : clear implicits.

End Retention.

(** ** Go's strings, [sort.Strings] and ranging over a map *)

Module GoLib.

(** [a <= b] and [a < b] on Go strings: byte by byte. *)
Definition string_le (a b : string) : Prop := String.leb a b = true.
Definition string_lt (a b : string) : Prop := String.ltb a b = true.

#[global] Instance string_le_dec : RelDecision string_le.
Proof. intros a b; unfold string_le; apply _. Defined.

#[global] Instance string_lt_dec : RelDecision string_lt.
Proof. intros a b; unfold string_lt; apply _. Defined.

(** [sort.Strings(a)]: the order on strings is total and antisymmetric, so
    the sorted slice does not depend on the sorting algorithm. *)
Definition sort_Strings (a : list string) : list string := merge_sort string_le a.

(** [for k := range m] yields every key of [m] once, in an order that Go
    leaves unspecified and that may differ from one loop to the next:
    [ks] is one such order. *)
Definition rangesOver {V} (ks : list string) (m : gmap string V) : Prop :=
  ks ≡ₚ (map_to_list m).*1.

(** [a := make([]string, 0, len(m)); for k := range m { a = append(a, k) }] *)
Definition collectKeys (ranged : list string) : list string :=
  fold_left (fun a k => a ++ [k]) ranged [].

(** The line feed of ["\n"]. *)
Definition LF : string := String (Ascii.ascii_of_nat 10) EmptyString.

End GoLib.

(** ** Package [models]: rows and series identity *)

Module Models.
Import GoLib.

(** The hash behind [NewInlineFNV64a()], declared outside the given sources:
    a fresh state, [Write] of the bytes of a string and [Sum64]. *)
Class InlineFNV64a (H : Type) := {
  NewInlineFNV64a : H;
  fnv_Write : H -> string -> H;
  Sum64 : H -> N
}.

Section Rows.
Context {H : Type} `{InlineFNV64a H}.
Context {I : Type}.

(** [type Row struct]; [I] stands for the [interface{}] cells. *)
Record Row := {
  Name : string;
  Tags : gmap string string;
  Columns : list string;
  Values : list (list I);
  Partial : bool
}.

(** [func (z *Row) tagsKeys() []string], where [ranged] is the order in
    which this call ranges over [z.Tags]. *)
Definition tagsKeys (z : Row) (ranged : list string) : list string :=
  let a := collectKeys ranged in
  sort_Strings a.

(** [func (z *Row) tagsHash() uint64]; [z.Tags[k]] is the empty string for
    a key the map does not hold. *)
Definition tagsHash (z : Row) (ranged : list string) : N :=
  let h := NewInlineFNV64a in
  let keys := tagsKeys z ranged in
  let h := fold_left (fun h k => fnv_Write (fnv_Write h k) (default "" (Tags z !! k))) keys h in
  Sum64 h.

(** [func (z *Row) SameSeries(o *Row) bool]; each of the two [tagsHash]
    calls ranges over its map in an order of its own. *)
Definition SameSeries (z o : Row) (rangedZ rangedO : list string) : bool :=
  bool_decide (tagsHash z rangedZ = tagsHash o rangedO) && bool_decide (Name z = Name o).

(** [type Rows []*Row] is a list of rows; [z[i]] for a Go [int] panics when
    [i] is negative or not below the length. *)
Definition index (z : list Row) (i : Z) : option Row :=
  if (i <? 0)%Z then None else z !! Z.to_nat i.

(** [func (z Rows) Len() int] *)
Definition Len (z : list Row) : Z := Z.of_nat (length z).

(** [func (z Rows) Less(i, j int) bool]; [None] is the panic of an index
    out of range. *)
Definition Less (z : list Row) (i j : Z) (rangedI rangedJ : list string)
  : option bool :=
  zi ← index z i;
  zj ← index z j;
  if bool_decide (Name zi ≠ Name zj)
  then Some (String.ltb (Name zi) (Name zj))
  else Some (tagsHash zi rangedI <? tagsHash zj rangedJ)%N.

(** [func (z Rows) Swap(i, j int)]: both elements are read, then [z[i]] and
    [z[j]] are stored. *)
Definition Swap (z : list Row) (i j : Z) : option (list Row) :=
  zi ← index z i;
  zj ← index z j;
  Some (<[Z.to_nat j := zi]> (<[Z.to_nat i := zj]> z)).

(** *** What the statements below observe of rows *)

(** [z.Less(i, j)] can return [b]: both indices are in range and each of
    the two [tagsHash] calls ranges over the tags of its row. *)
Definition LessReturns (z : list Row) (i j : Z) (b : bool) : Prop :=
  exists zi zj ri rj,
    index z i = Some zi /\ index z j = Some zj /\
    rangesOver ri (Tags zi) /\ rangesOver rj (Tags zj) /\
    Less z i j ri rj = Some b.

(** Whether both indices are in range for [z]. *)
Definition inRange (z : list Row) (i j : Z) : Prop :=
  (0 <= i < Len z)%Z /\ (0 <= j < Len z)%Z.

(** [z.SameSeries(o)] can return [b]. *)
Definition SameSeriesReturns (z o : Row) (b : bool) : Prop :=
  exists rz ro,
    rangesOver rz (Tags z) /\ rangesOver ro (Tags o) /\ SameSeries z o rz ro = b.

End Rows.

Arguments Row : clear implicits.

End Models.

(** ** Package [debug]: the [/debug/vars] handler *)

Module Debug.
Import GoLib.

(** What a handler does to its [http.ResponseWriter], call by call. *)
Inductive Output :=
| HeaderAdd (k v : string)      (* [w.Header().Add(k, v)] *)
| HeaderSet (k v : string)      (* [w.Header().Set(k, v)] *)
| WriteHeader (code : Z)        (* [w.WriteHeader(code)] *)
| Fprintln (s : string)         (* [fmt.Fprintln(w, s)] *)
| FprintfKey (key : string)     (* [fmt.Fprintf(w, "%q: ", key)] *)
| Write (b : string).           (* [w.Write(b)] *)

#[global] Instance Output_eq_dec : EqDecision Output.
Proof. solve_decision. Defined.

Section Expvar.
(** [monitor.Statistic] is declared outside the given sources: the handler
    reads its [Name] and [Tags] and hands it to [json.Marshal], which may
    fail and which also accepts a nil pointer. *)
Context {Statistic : Type}.
Variable stat_Name : Statistic -> string.
Variable stat_Tags : Statistic -> gmap string string.
Variable json_Marshal : option Statistic -> option string.
Variable json_MarshalError : string -> string.
Variable bytes_TrimSpace : string -> string.

Definition StatusInternalServerError : Z := 500.

(** [func ServeError(w http.ResponseWriter, errMsg string, code int)] *)
Definition ServeError (errMsg : string) (code : Z) : list Output :=
  [HeaderAdd "Content-Type" "application/json";
   WriteHeader code;
   Write (json_MarshalError errMsg)].

(** The key [serveExpvar] builds in [buf] for one statistic. *)
Definition statKey (s : Statistic) : string :=
  let buf := stat_Name s in
  match stat_Tags s !! "path" with
  | Some path =>
      let buf := buf +:+ ":" +:+ path in
      match stat_Tags s !! "id" with
      | Some id => buf +:+ ":" +:+ id
      | None => buf
      end
  | None =>
      match stat_Tags s !! "bind" with
      | Some bind =>
          let buf :=
            match stat_Tags s !! "proto" with
            | Some proto => buf +:+ ":" +:+ proto
            | None => buf
            end in
          buf +:+ ":" +:+ bind
      | None =>
          match stat_Tags s !! "database" with
          | Some database =>
              let buf := buf +:+ ":" +:+ database in
              match stat_Tags s !! "retention_policy" with
              | Some rp =>
                  let buf := buf +:+ ":" +:+ rp in
                  let buf :=
                    match stat_Tags s !! "name" with
                    | Some name => buf +:+ ":" +:+ name
                    | None => buf
                    end in
                  match stat_Tags s !! "destination" with
                  | Some dest => buf +:+ ":" +:+ dest
                  | None => buf
                  end
              | None => buf
              end
          | None => buf
          end
      end
  end.

(** The first loop of [serveExpvar]: [statMap[key] = s] for each statistic
    in turn. *)
Definition buildStatMap (stats : list Statistic) : gmap string Statistic :=
  fold_left (fun statMap s => <[statKey s := s]> statMap) stats ∅.

(** The body of the second loop for the key at index [idx]. *)
Definition emitKey (statMap : gmap string Statistic) (idx : nat) (key : string)
  : list Output :=
  match json_Marshal (statMap !! key) with
  | None => []                                       (* [continue] *)
  | Some out =>
      (if bool_decide (idx ≠ 0) then [Fprintln ","] else []) ++
      [FprintfKey key; Write (bytes_TrimSpace out)]
  end.

(** [func (m *Mux) serveExpvar(w, r)]: [monitor_Statistics] is what
    [m.monitor.Statistics(nil)] returned, [ranged] the order in which the
    second loop ranges over [statMap]. *)
Definition serveExpvar (monitor_Statistics : list Statistic + error)
    (ranged : list string) : list Output :=
  match monitor_Statistics with
  | inr err => ServeError err StatusInternalServerError
  | inl stats =>
      let statMap := buildStatMap stats in
      let keys := collectKeys ranged in
      let keys := sort_Strings keys in
      [HeaderSet "Content-Type" "application/json; charset=utf-8"; Fprintln "{"] ++
      mjoin (imap (emitKey statMap) keys) ++
      [Fprintln (LF +:+ "}")]
  end.

(** *** What the statements below observe of a response *)

(** The entries written: each quoted key with the bytes that follow it. *)
Fixpoint emitted (out : list Output) : list (string * string) :=
  match out with
  | [] => []
  | FprintfKey key :: rest =>
      match rest with
      | Write b :: _ => (key, b) :: emitted rest
      | _ => emitted rest
      end
  | _ :: rest => emitted rest
  end.

(** [s] is the last statistic of [stats] whose key is [key]. *)
Definition lastWithKey (stats : list Statistic) (key : string) (s : Statistic) : Prop :=
  exists before after,
    stats = before ++ s :: after /\ statKey s = key /\
    forall s', s' ∈ after -> statKey s' ≠ key.

(** A comma-separated list of entries, as the body of a JSON object wants
    it: each entry is its quoted key and its bytes, and a comma line stands
    between two entries. *)
Definition entryOutput (e : string * string) : list Output :=
  [FprintfKey e.1; Write e.2].

Definition joinEntries (es : list (string * string)) : list Output :=
  match es with
  | [] => []
  | e :: rest => entryOutput e ++ (e' ← rest; Fprintln "," :: entryOutput e')
  end.

End Expvar.

End Debug.

(** ** Test doubles for the collaborators *)

Module Fixtures.
Import Meta Retention.

(** A metadata client over a fixed snapshot; [DeleteShardGroup] fails for
    the listed group IDs and records the others. *)
Record FakeMeta := {
  fm_dbs : list DatabaseInfo;
  fm_failing : list N;
  fm_deleted : list (string * string * N)
}.

#[global] Instance FakeMeta_client : MetaClient FakeMeta := {|
  Databases m := (fm_dbs m, m);
  DeleteShardGroup d p i m :=
    if bool_decide (i ∈ fm_failing m) then (Some "meta unavailable", m)
    else (None, {| fm_dbs := fm_dbs m; fm_failing := fm_failing m;
                   fm_deleted := fm_deleted m ++ [(d, p, i)] |})
|}.

(** A shard store holding a list of shard IDs; [DeleteShard] fails for the
    listed IDs and removes the others. *)
Record FakeStore := {
  fs_shards : list N;
  fs_busy : list N
}.

#[global] Instance FakeStore_store : TSDBStore FakeStore := {|
  ShardIDs t := (fs_shards t, t);
  DeleteShard i t :=
    if bool_decide (i ∈ fs_busy t) then (Some "disk busy", t)
    else (None, {| fs_shards := filter (fun j => j ≠ i) (fs_shards t);
                   fs_busy := fs_busy t |})
|}.

(** A clock that advances by one hour at each reading. *)
Definition hour : Z := 3600000000000.

#[global] Instance Ticking_clock : Clock Z := {|
  Now c := (c, c + hour)%Z
|}.

(** Scenario 1 and 2 of the specification in one snapshot: [G1] and [G4]
    ended 30 and 40 hours before time 0 under a 24 hour policy; [G2] is
    metadata-deleted and owns shards 10 and 11; [G3] is still live. A second
    policy has the deleted group [G5], which lists shard 11 once more. *)
Definition G1 : ShardGroupInfo :=
  {| sg_ID := 1; sg_EndTime := (-30 * hour)%Z; sg_Deleted := false;
     sg_Shards := [ {| sh_ID := 5 |} ] |}.
Definition G2 : ShardGroupInfo :=
  {| sg_ID := 2; sg_EndTime := (-60 * hour)%Z; sg_Deleted := true;
     sg_Shards := [ {| sh_ID := 10 |}; {| sh_ID := 11 |} ] |}.
Definition G3 : ShardGroupInfo :=
  {| sg_ID := 3; sg_EndTime := (-2 * hour)%Z; sg_Deleted := false;
     sg_Shards := [ {| sh_ID := 12 |} ] |}.
Definition G4 : ShardGroupInfo :=
  {| sg_ID := 4; sg_EndTime := (-40 * hour)%Z; sg_Deleted := false;
     sg_Shards := [ {| sh_ID := 6 |} ] |}.
Definition G5 : ShardGroupInfo :=
  {| sg_ID := 5; sg_EndTime := (-90 * hour)%Z; sg_Deleted := true;
     sg_Shards := [ {| sh_ID := 11 |} ] |}.
Definition autogen : RetentionPolicyInfo :=
  {| rp_Name := "autogen"; rp_Duration := (24 * hour)%Z;
     rp_ShardGroups := [G1; G2; G3; G4] |}.
Definition weekly : RetentionPolicyInfo :=
  {| rp_Name := "weekly"; rp_Duration := (168 * hour)%Z;
     rp_ShardGroups := [G5] |}.
Definition mydb : DatabaseInfo :=
  {| db_Name := "mydb"; db_RetentionPolicies := [autogen; weekly] |}.

(** The first [DeleteShardGroup] and the first [DeleteShard] of a sweep over
    this world fail. *)
Definition world0 : World FakeMeta FakeStore Z :=
  {| meta := {| fm_dbs := [mydb]; fm_failing := [1]%N; fm_deleted := [] |};
     store := {| fs_shards := [10; 11; 12]%N; fs_busy := [10]%N |};
     wall := 0%Z |}.

(** A service on [world0] that is opened, sweeps its shards on a tick
    while [Close] is called, and is closed once both loops have returned. *)
Definition opened : Service FakeMeta FakeStore Z := Open (NewService hour world0).

Definition shutdown : list Action :=
  [ActLoop ShardGroups MvEnter; ActLoop Shards MvEnter;
   ActTick Shards; ActLoop Shards MvTicker;
   ActClose;
   ActLoop ShardGroups MvReturn; ActLoop Shards MvSweep; ActLoop Shards MvReturn;
   ActCloseReturn].

Definition closedService : Service FakeMeta FakeStore Z :=
  default opened (run shutdown opened).

(** A request to the debug endpoint arrives while the shard-group loop is
    in the middle of a sweep and the shard loop waits in its [select]. *)
Definition busy : list Action :=
  [ActLoop ShardGroups MvEnter; ActLoop Shards MvEnter;
   ActTick ShardGroups; ActLoop ShardGroups MvTicker;
   ActRequest].

Definition busyService : Service FakeMeta FakeStore Z :=
  default opened (run busy opened).

(** A hash to run the row functions on: 64-bit FNV-1a, one byte at a
    time, with wrap-around at [2^64]. *)
Definition fnv_offset64 : N := 14695981039346656037.
Definition fnv_prime64 : N := 1099511628211.

Fixpoint fnv1a (h : N) (s : string) : N :=
  match s with
  | EmptyString => h
  | String c s' => fnv1a ((N.lxor h (Ascii.N_of_ascii c) * fnv_prime64) mod 2 ^ 64)%N s'
  end.

#[global] Instance FNV1a : Models.InlineFNV64a N := {|
  Models.NewInlineFNV64a := fnv_offset64;
  Models.fnv_Write := fnv1a;
  Models.Sum64 h := h
|}.

Definition rowA : Models.Row Z :=
  {| Models.Name := "cpu";
     Models.Tags := <["host" := "a"]> (<["region" := "west"]> ∅);
     Models.Columns := ["time"; "value"]; Models.Values := [[0%Z; 1%Z]];
     Models.Partial := false |}.

Definition rowB : Models.Row Z :=
  {| Models.Name := "cpu";
     Models.Tags := <["region" := "west"]> (<["host" := "a"]> ∅);
     Models.Columns := ["time"; "value"]; Models.Values := [[5%Z; 7%Z]];
     Models.Partial := true |}.

Definition rowC : Models.Row Z :=
  {| Models.Name := "mem"; Models.Tags := ∅;
     Models.Columns := ["time"; "value"]; Models.Values := [];
     Models.Partial := false |}.

(** A statistic with a name, tags and one value; marshalling fails for the
    name ["broken"], as it does for a value JSON cannot carry. *)
Record FakeStat := {
  st_Name : string;
  st_Tags : gmap string string;
  st_Value : string
}.

Definition fakeMarshal (p : option FakeStat) : option string :=
  match p with
  | None => Some "null"
  | Some s =>
      if bool_decide (st_Name s = "broken") then None
      else Some (" {name:" +:+ st_Name s +:+ ",v:" +:+ st_Value s +:+ "}")
  end.

Definition fakeMarshalError (msg : string) : string := "{error:" +:+ msg +:+ "}".

(** Leading blanks off; enough for [fakeMarshal]. *)
Fixpoint fakeTrimSpace (b : string) : string :=
  match b with
  | String c b' => if bool_decide (c = Ascii.Space) then fakeTrimSpace b' else b
  | EmptyString => EmptyString
  end.

Definition statShard1 : FakeStat :=
  {| st_Name := "shard"; st_Tags := <["path" := "/d/1"]> (<["id" := "1"]> ∅);
     st_Value := "old" |}.
Definition statShard1' : FakeStat :=
  {| st_Name := "shard"; st_Tags := <["path" := "/d/1"]> (<["id" := "1"]> ∅);
     st_Value := "new" |}.
Definition statHttpd : FakeStat :=
  {| st_Name := "httpd"; st_Tags := <["bind" := ":8086"]> ∅; st_Value := "3" |}.
(** The same name and the same key as [statShard1], from a path that holds
    the colon itself. *)
Definition statPathOnly : FakeStat :=
  {| st_Name := "shard"; st_Tags := <["path" := "/d/1:1"]> ∅; st_Value := "other" |}.
(** The same name and the same key as [statHttpd], from a database. *)
Definition statDatabase : FakeStat :=
  {| st_Name := "httpd"; st_Tags := <["database" := ":8086"]> ∅; st_Value := "db" |}.
Definition statBroken : FakeStat :=
  {| st_Name := "broken"; st_Tags := ∅; st_Value := "x" |}.

End Fixtures.
(** * Properties *)

Import Meta Retention GoLib.

(** Membership in a list that computes to its elements. *)
Ltac in_list :=
  vm_compute; repeat first [apply list_elem_of_here | apply list_elem_of_further].

(** A decidable property that computes to true. *)
Ltac by_computing := apply (bool_decide_unpack _); vm_compute; exact I.

(** ** The sweep monad *)

Section SweepFacts.
Context {M T C : Type} `{MetaClient M} `{TSDBStore T} `{Clock C}.

Implicit Types (w : World M T C) (evs : list Event).

Lemma events_bind {A B} (m : Sweep A) (k : A -> Sweep B) w :
  events (bind m k) w = events m w ++ events (k (m w).1.1) (final m w).
Proof.
  unfold events, final, bind.
  destruct (m w) as [[a w1] e1]; simpl.
  destruct (k a w1) as [[b w2] e2]; reflexivity.
Qed.

Lemma final_bind {A B} (m : Sweep A) (k : A -> Sweep B) w :
  final (bind m k) w = final (k (m w).1.1) (final m w).
Proof.
  unfold final, bind.
  destruct (m w) as [[a w1] e1]; simpl.
  destruct (k a w1) as [[b w2] e2]; reflexivity.
Qed.

Lemma events_forEach_nil {A} (body : A -> Sweep unit) w :
  events (forEach [] body) w = [].
Proof. reflexivity. Qed.

Lemma events_forEach_cons {A} (x : A) l (body : A -> Sweep unit) w :
  events (forEach (x :: l) body) w =
  events (body x) w ++ events (forEach l body) (final (body x) w).
Proof. simpl forEach. apply events_bind. Qed.

Lemma final_forEach_cons {A} (x : A) l (body : A -> Sweep unit) w :
  final (forEach (x :: l) body) w = final (forEach l body) (final (body x) w).
Proof. simpl forEach. apply final_bind. Qed.

(** A loop whose body leaves a part [proj] of the world alone leaves it
    alone as a whole. *)
Lemma final_forEach_frame {A X} (proj : World M T C -> X) (l : list A)
    (body : A -> Sweep unit) :
  (forall x w, proj (final (body x) w) = proj w) ->
  forall w, proj (final (forEach l body) w) = proj w.
Proof.
  intros Hbody. induction l as [|x l IH]; intros w.
  - reflexivity.
  - rewrite final_forEach_cons, IH. apply Hbody.
Qed.

(** The events of a loop all satisfy what the events of its body do. *)
Lemma events_forEach_Forall {A} (P : Event -> Prop) (l : list A)
    (body : A -> Sweep unit) :
  (forall x w, Forall P (events (body x) w)) ->
  forall w, Forall P (events (forEach l body) w).
Proof.
  intros Hbody. induction l as [|x l IH]; intros w.
  - constructor.
  - rewrite events_forEach_cons. apply Forall_app; split; [apply Hbody | apply IH].
Qed.

(** What each primitive contributes in front of its continuation. *)
Lemma events_logger_Print {B} l (k : unit -> Sweep B) w :
  events (bind (logger_Print l) k) w = EvLog l :: events (k tt) w.
Proof. unfold events, bind, logger_Print. destruct (k tt w) as [[b w2] e2]. reflexivity. Qed.

Lemma events_Databases {B} (k : list DatabaseInfo -> Sweep B) w :
  events (bind MetaClient_Databases k) w =
  EvDatabases :: events (k (Databases (meta w)).1)
    {| meta := (Databases (meta w)).2; store := store w; wall := wall w |}.
Proof.
  unfold events, bind, MetaClient_Databases.
  destruct (Databases (meta w)) as [dbs m']. cbn [fst snd].
  destruct (k dbs _) as [[b w2] e2]. reflexivity.
Qed.

Lemma events_ShardIDs {B} (k : list N -> Sweep B) w :
  events (bind TSDBStore_ShardIDs k) w =
  EvShardIDs :: events (k (ShardIDs (store w)).1)
    {| meta := meta w; store := (ShardIDs (store w)).2; wall := wall w |}.
Proof.
  unfold events, bind, TSDBStore_ShardIDs.
  destruct (ShardIDs (store w)) as [ids t']. cbn [fst snd].
  destruct (k ids _) as [[b w2] e2]. reflexivity.
Qed.

Lemma events_Now {B} (k : Z -> Sweep B) w :
  events (bind time_Now k) w =
  EvNow (Now (wall w)).1 :: events (k (Now (wall w)).1)
    {| meta := meta w; store := store w; wall := (Now (wall w)).2 |}.
Proof.
  unfold events, bind, time_Now.
  destruct (Now (wall w)) as [t c']. cbn [fst snd].
  destruct (k t _) as [[b w2] e2]. reflexivity.
Qed.

Lemma final_Now {B} (k : Z -> Sweep B) w :
  final (bind time_Now k) w =
  final (k (Now (wall w)).1)
    {| meta := meta w; store := store w; wall := (Now (wall w)).2 |}.
Proof.
  unfold final, bind, time_Now.
  destruct (Now (wall w)) as [t c']. cbn [fst snd].
  destruct (k t _) as [[b w2] e2]. reflexivity.
Qed.

(** ** The orphan map of [deleteShards] *)

Lemma fold_left_bind {A B X} (f : X -> B -> X) (g : A -> list B) (l : list A) (a : X) :
  fold_left f (l ≫= g) a = fold_left (fun a x => fold_left f (g x) a) l a.
Proof.
  revert a. induction l as [|x l IH]; intros a; [reflexivity|].
  rewrite bind_cons, fold_left_app. apply IH.
Qed.

Lemma fold_left_fmap {A B X} (f : X -> B -> X) (g : A -> B) (l : list A) (a : X) :
  fold_left f (g <$> l) a = fold_left (fun a x => f a (g x)) l a.
Proof. revert a. induction l as [|x l IH]; intros a; [reflexivity|]. apply IH. Qed.

Lemma fold_left_ext {A X} (f g : X -> A -> X) (l : list A) (a : X) :
  (forall a x, f a x = g a x) -> fold_left f l a = fold_left g l a.
Proof.
  intros Hfg. revert a. induction l as [|x l IH]; intros a; [reflexivity|].
  simpl. rewrite Hfg. apply IH.
Qed.

(** The map is what storing the entries one after the other gives. *)
Lemma deletedShardIDs_entries (dbs : list DatabaseInfo) :
  deletedShardIDs dbs =
  fold_left (fun m e => <[e.1 := e.2]> m) (orphanEntries dbs) (∅ : gmap N deletionInfo).
Proof.
  unfold deletedShardIDs, orphanEntries, policies.
  generalize (∅ : gmap N deletionInfo) as m.
  induction dbs as [|d dbs IH]; intros m; [reflexivity|].
  simpl fold_left at 1. rewrite IH. clear IH.
  rewrite !bind_cons, bind_app, fold_left_app. f_equal.
  rewrite list_fmap_bind, fold_left_bind. apply fold_left_ext. intros m1 r.
  simpl. rewrite fold_left_bind. apply fold_left_ext. intros m2 g.
  rewrite fold_left_fmap. reflexivity.
Qed.

(** Storing entries: a key no entry carries keeps what it had. *)
Lemma lookup_store_other `{Countable K} {V} (l : list (K * V)) (m : gmap K V) (k : K) :
  k ∉ l.*1 -> fold_left (fun m e => <[e.1 := e.2]> m) l m !! k = m !! k.
Proof.
  revert m. induction l as [|[k' v'] l IH]; intros m Hk; [reflexivity|].
  rewrite fmap_cons in Hk. apply not_elem_of_cons in Hk as [Hne Hk].
  simpl. rewrite IH by assumption. apply lookup_insert_ne. auto.
Qed.

(** Storing entries: the last entry for a key is the one that stays. *)
Lemma lookup_store_last `{Countable K} {V} (l1 l2 : list (K * V)) (m : gmap K V)
    (k : K) (v : V) :
  k ∉ l2.*1 ->
  fold_left (fun m e => <[e.1 := e.2]> m) (l1 ++ (k, v) :: l2) m !! k = Some v.
Proof.
  intros Hk. rewrite fold_left_app. simpl.
  rewrite lookup_store_other by assumption. apply lookup_insert_eq.
Qed.

Lemma lookup_store_is_Some `{Countable K} {V} (l : list (K * V)) (m : gmap K V) (k : K) :
  is_Some (fold_left (fun m e => <[e.1 := e.2]> m) l m !! k) <->
  k ∈ l.*1 \/ is_Some (m !! k).
Proof.
  revert m. induction l as [|[k' v'] l IH]; intros m; simpl.
  - rewrite elem_of_nil. tauto.
  - rewrite IH, elem_of_cons. destruct (decide (k = k')) as [->|Hne].
    + rewrite lookup_insert_eq. split; [auto|]. intros _. right. eauto.
    + rewrite lookup_insert_ne by auto. tauto.
Qed.

Lemma elem_of_policies (dbs : list DatabaseInfo) d r :
  (d, r) ∈ policies dbs <-> d ∈ dbs /\ r ∈ db_RetentionPolicies d.
Proof.
  unfold policies. rewrite list_elem_of_bind. split.
  - intros (d' & Hin & Hd). apply list_elem_of_fmap in Hin as (r' & Heq & Hr).
    inversion Heq; subst. auto.
  - intros [Hd Hr]. exists d. split; [|assumption].
    apply list_elem_of_fmap. eauto.
Qed.

Lemma elem_of_orphanEntries_keys (dbs : list DatabaseInfo) (S : N) :
  S ∈ (orphanEntries dbs).*1 <-> orphanCandidate dbs S.
Proof.
  unfold orphanEntries, orphanCandidate. rewrite list_elem_of_fmap. split.
  - intros ([S' di] & -> & Hin). simpl.
    apply list_elem_of_bind in Hin as ([d r] & Hin & Hp).
    apply list_elem_of_bind in Hin as (g & Hin & Hg).
    apply list_elem_of_fmap in Hin as (sh & Heq & Hsh).
    apply elem_of_policies in Hp as [Hd Hr]. inversion Heq; subst.
    exists d, r, g, sh. auto.
  - intros (d & r & g & sh & Hd & Hr & Hg & Hsh & <-).
    exists (sh_ID sh, {| db := db_Name d; rp := rp_Name r |}). split; [reflexivity|].
    apply list_elem_of_bind. exists (d, r). split; [|by apply elem_of_policies].
    apply list_elem_of_bind. exists g. split; [|assumption].
    apply list_elem_of_fmap. eauto.
Qed.

(** The keys of the map are the orphan candidates. *)
Lemma deletedShardIDs_is_Some (dbs : list DatabaseInfo) (S : N) :
  is_Some (deletedShardIDs dbs !! S) <-> orphanCandidate dbs S.
Proof.
  rewrite deletedShardIDs_entries, lookup_store_is_Some, lookup_empty.
  rewrite elem_of_orphanEntries_keys. split; [|auto].
  intros [?|[? ?]]; [assumption|discriminate].
Qed.

(** ** The events of [deleteShards] *)

Lemma deleteShardCalls_app evs1 evs2 :
  deleteShardCalls (evs1 ++ evs2) = deleteShardCalls evs1 ++ deleteShardCalls evs2.
Proof. apply omap_app. Qed.

Lemma elem_of_deleteShardCalls evs (S : N) :
  S ∈ deleteShardCalls evs <-> exists err, EvDeleteShard S err ∈ evs.
Proof.
  unfold deleteShardCalls. rewrite list_elem_of_omap. split.
  - intros (e & He & Heq). destruct e; inversion Heq; subst; eauto.
  - intros [err He]. exists (EvDeleteShard S err). auto.
Qed.

Lemma deleteShards_loop (deleted : gmap N deletionInfo) (ids : list N) w :
  let evs :=
    events (forEach ids (fun id =>
      match deleted !! id with
      | Some di =>
          bind (TSDBStore_DeleteShard id) (fun err =>
            match err with
            | Some e => logger_Print (LogFailedDeleteShard id (db di) (rp di) e)
            | None => logger_Print (LogShardDeleted id (db di) (rp di))
            end)
      | None => ret tt
      end)) w in
  deleteShardCalls evs = filter (fun id => is_Some (deleted !! id)) ids /\
  Forall shardLoopEvent evs.
Proof.
  cbv zeta.
  match goal with |- context [forEach ids ?b] => set (body := b) end.
  assert (Hbody : forall id w,
    (deleted !! id = None /\ events (body id) w = []) \/
    (is_Some (deleted !! id) /\
     exists err l, events (body id) w = [EvDeleteShard id err; EvLog l])).
  { intros id w'. subst body. cbv beta. destruct (deleted !! id) as [di|] eqn:Hid.
    - right. split; [eauto|].
      unfold events, bind, TSDBStore_DeleteShard.
      destruct (DeleteShard id (store w')) as [[e|] t']; simpl; eauto.
    - left. split; reflexivity. }
  clearbody body.
  revert w. induction ids as [|id ids IH]; intros w; [split; [reflexivity|constructor]|].
  rewrite events_forEach_cons, deleteShardCalls_app, Forall_app.
  destruct (IH (final (body id) w)) as [IHc IHf]. rewrite IHc.
  destruct (Hbody id w) as [[Hid ->]|[Hid (err & l & ->)]].
  - rewrite filter_cons_False by (rewrite Hid; intros [? ?]; discriminate).
    split; [reflexivity|]. split; [constructor|assumption].
  - rewrite filter_cons_True by assumption.
    split; [reflexivity|]. split; [repeat constructor|assumption].
Qed.

(** [deleteShards] logs, fetches the databases, lists the shard IDs and
    then attempts exactly the listed IDs found in the map, in order. *)
Lemma deleteShards_events w :
  let dbs := (Databases (meta w)).1 in
  let ids := (ShardIDs (store w)).1 in
  exists tail,
    events deleteShards w =
      EvLog LogShardDeletionCheck :: EvDatabases :: EvShardIDs :: tail /\
    deleteShardCalls tail = orphansAmong dbs ids /\
    Forall shardLoopEvent tail.
Proof.
  cbv zeta. unfold deleteShards.
  rewrite events_logger_Print, events_Databases, events_ShardIDs. cbn [store].
  eexists. split; [reflexivity|]. apply deleteShards_loop.
Qed.

(** ** The events of [deleteShardGroups] *)

Lemma deleteShardGroupCalls_app evs1 evs2 :
  deleteShardGroupCalls (evs1 ++ evs2) =
  deleteShardGroupCalls evs1 ++ deleteShardGroupCalls evs2.
Proof. apply omap_app. Qed.

Lemma elem_of_deleteShardGroupCalls evs d p (i : N) :
  (d, p, i) ∈ deleteShardGroupCalls evs <-> exists err, EvDeleteShardGroup d p i err ∈ evs.
Proof.
  unfold deleteShardGroupCalls. rewrite list_elem_of_omap. split.
  - intros (e & He & Heq). destruct e; inversion Heq; subst; eauto.
  - intros [err He]. exists (EvDeleteShardGroup d p i err). auto.
Qed.

(** The innermost loop: one call and one log line per expired group,
    whatever the calls return; the clock is not read. *)
Lemma deleteShardGroups_groups (d : DatabaseInfo) (r : RetentionPolicyInfo)
    (gs : list ShardGroupInfo) w :
  let body := fun g =>
    bind (MetaClient_DeleteShardGroup (db_Name d) (rp_Name r) (sg_ID g)) (fun err =>
      match err with
      | Some e => logger_Print (LogFailedDeleteShardGroup (sg_ID g) (db_Name d) (rp_Name r) e)
      | None => logger_Print (LogDeletedShardGroup (sg_ID g) (db_Name d) (rp_Name r))
      end) in
  deleteShardGroupCalls (events (forEach gs body) w) = groupKey d r <$> gs /\
  Forall groupLoopEvent (events (forEach gs body) w) /\
  wall (final (forEach gs body) w) = wall w /\
  store (final (forEach gs body) w) = store w.
Proof.
  intros body.
  assert (Hbody : forall g w,
    (exists err l, events (body g) w =
       [EvDeleteShardGroup (db_Name d) (rp_Name r) (sg_ID g) err; EvLog l]) /\
    wall (final (body g) w) = wall w /\ store (final (body g) w) = store w).
  { intros g w'. subst body. unfold events, final, bind, MetaClient_DeleteShardGroup.
    destruct (DeleteShardGroup _ _ _ (meta w')) as [[e|] m']; simpl; eauto. }
  clearbody body. revert w.
  induction gs as [|g gs IH]; intros w; [repeat split; constructor|].
  rewrite events_forEach_cons, final_forEach_cons, deleteShardGroupCalls_app, Forall_app.
  destruct (Hbody g w) as ((err & l & Hev) & Hw & Hs).
  destruct (IH (final (body g) w)) as (IHc & IHf & IHw & IHs).
  rewrite IHc, IHw, IHs, Hw, Hs, Hev. repeat split; [repeat constructor|assumption].
Qed.

(** The loop over the policies of one database. *)
Lemma deleteShardGroups_policies (d : DatabaseInfo) (rps : list RetentionPolicyInfo) w :
  let body := fun r =>
    bind time_Now (fun now =>
      forEach (ExpiredShardGroups r now) (fun g =>
        bind (MetaClient_DeleteShardGroup (db_Name d) (rp_Name r) (sg_ID g)) (fun err =>
          match err with
          | Some e =>
              logger_Print (LogFailedDeleteShardGroup (sg_ID g) (db_Name d) (rp_Name r) e)
          | None =>
              logger_Print (LogDeletedShardGroup (sg_ID g) (db_Name d) (rp_Name r))
          end))) in
  deleteShardGroupCalls (events (forEach rps body) w) =
    expiredAt (visitPolicies d rps (wall w)).1 /\
  Forall groupLoopEvent (events (forEach rps body) w) /\
  wall (final (forEach rps body) w) = (visitPolicies d rps (wall w)).2 /\
  store (final (forEach rps body) w) = store w.
Proof.
  intros body.
  assert (Hbody : forall r w,
    deleteShardGroupCalls (events (body r) w) =
      groupKey d r <$> ExpiredShardGroups r (Now (wall w)).1 /\
    Forall groupLoopEvent (events (body r) w) /\
    wall (final (body r) w) = (Now (wall w)).2 /\
    store (final (body r) w) = store w).
  { intros r w'. subst body. cbv beta. rewrite events_Now, final_Now. cbv beta.
    match goal with |- context [events (forEach ?gs ?b) ?w1] =>
      destruct (deleteShardGroups_groups d r gs w1) as (Hc & Hf & Hw & Hs)
    end.
    simpl deleteShardGroupCalls. rewrite Hc, Hw, Hs.
    repeat split. constructor; [exact I|assumption]. }
  clearbody body. revert w.
  induction rps as [|r rps IH]; intros w; [repeat split; constructor|].
  rewrite events_forEach_cons, final_forEach_cons, deleteShardGroupCalls_app, Forall_app.
  destruct (Hbody r w) as (Hc & Hf & Hw & Hs).
  destruct (IH (final (body r) w)) as (IHc & IHf & IHw & IHs).
  rewrite IHc, IHw, IHs, Hc, Hw, Hs.
  simpl visitPolicies. destruct (Now (wall w)) as [t c1]. cbn [fst snd].
  destruct (visitPolicies d rps c1) as [vs c2]. cbn [fst snd].
  unfold expiredAt. rewrite bind_cons. repeat split; assumption.
Qed.

Lemma expiredAt_app vs1 vs2 : expiredAt (vs1 ++ vs2) = expiredAt vs1 ++ expiredAt vs2.
Proof. apply bind_app. Qed.

(** The loop over the databases. *)
Lemma deleteShardGroups_databases (dbs : list DatabaseInfo) w :
  let body := fun d =>
    forEach (db_RetentionPolicies d) (fun r =>
      bind time_Now (fun now =>
        forEach (ExpiredShardGroups r now) (fun g =>
          bind (MetaClient_DeleteShardGroup (db_Name d) (rp_Name r) (sg_ID g)) (fun err =>
            match err with
            | Some e =>
                logger_Print (LogFailedDeleteShardGroup (sg_ID g) (db_Name d) (rp_Name r) e)
            | None =>
                logger_Print (LogDeletedShardGroup (sg_ID g) (db_Name d) (rp_Name r))
            end)))) in
  deleteShardGroupCalls (events (forEach dbs body) w) =
    expiredAt (policyVisits dbs (wall w)) /\
  Forall groupLoopEvent (events (forEach dbs body) w) /\
  store (final (forEach dbs body) w) = store w.
Proof.
  intros body.
  assert (Hbody : forall d w,
    deleteShardGroupCalls (events (body d) w) =
      expiredAt (visitPolicies d (db_RetentionPolicies d) (wall w)).1 /\
    Forall groupLoopEvent (events (body d) w) /\
    wall (final (body d) w) = (visitPolicies d (db_RetentionPolicies d) (wall w)).2 /\
    store (final (body d) w) = store w).
  { intros d w'. subst body. apply deleteShardGroups_policies. }
  clearbody body. revert w.
  induction dbs as [|d dbs IH]; intros w; [repeat split; constructor|].
  rewrite events_forEach_cons, final_forEach_cons, deleteShardGroupCalls_app, Forall_app.
  destruct (Hbody d w) as (Hc & Hf & Hw & Hs).
  destruct (IH (final (body d) w)) as (IHc & IHf & IHs).
  rewrite IHc, IHs, Hc, Hw, Hs.
  simpl policyVisits. destruct (visitPolicies d _ (wall w)) as [vs c1]. cbn [fst snd].
  rewrite expiredAt_app. repeat split; assumption.
Qed.

(** [deleteShardGroups] fetches the databases and then attempts exactly the
    groups expired at the visit of their policy, in order; it leaves the
    shard store alone. *)
Lemma deleteShardGroups_events w :
  let dbs := (Databases (meta w)).1 in
  exists tail,
    events deleteShardGroups w = EvDatabases :: tail /\
    deleteShardGroupCalls tail = expiredAt (policyVisits dbs (wall w)) /\
    Forall groupLoopEvent tail.
Proof.
  cbv zeta. unfold deleteShardGroups. rewrite events_Databases.
  eexists. split; [reflexivity|].
  match goal with |- context [events (forEach ?dbs ?b) ?w1] =>
    destruct (deleteShardGroups_databases dbs w1) as (Hc & Hf & _)
  end.
  split; assumption.
Qed.

Lemma deleteShardGroups_store w : store (final deleteShardGroups w) = store w.
Proof.
  unfold deleteShardGroups. rewrite final_bind.
  match goal with |- context [final (forEach ?dbs ?b) ?w1] =>
    destruct (deleteShardGroups_databases dbs w1) as (_ & _ & Hs)
  end.
  rewrite Hs. unfold final, MetaClient_Databases.
  destruct (Databases (meta w)); reflexivity.
Qed.

(** Each policy of each database is visited once, in traversal order. *)
Lemma visitPolicies_policies d rps (c : C) :
  (visitPolicies d rps c).1.*1 = (fun r => (d, r)) <$> rps.
Proof.
  revert c. induction rps as [|r rps IH]; intros c; [reflexivity|].
  simpl visitPolicies. destruct (Now c) as [t c1]. specialize (IH c1).
  destruct (visitPolicies d rps c1) as [vs c2]. cbn [fst] in *.
  rewrite !fmap_cons, IH. reflexivity.
Qed.

Lemma policyVisits_policies dbs (c : C) : (policyVisits dbs c).*1 = policies dbs.
Proof.
  revert c. induction dbs as [|d dbs IH]; intros c; [reflexivity|].
  simpl policyVisits.
  pose proof (visitPolicies_policies d (db_RetentionPolicies d) c) as Hv.
  destruct (visitPolicies d _ c) as [vs c1]. cbn [fst] in Hv.
  unfold policies. rewrite fmap_app, bind_cons, Hv, IH. reflexivity.
Qed.

(** ** Counting the calls for one shard group *)

Lemma filter_key_absent {K} `{EqDecision K} (P : K * bool -> Prop)
    `{forall p, Decision (P p)} (l : list (K * bool)) (k : K) :
  k ∉ l.*1 -> filter (fun k' => k' = k) (filter P l).*1 = [].
Proof.
  intros Hk. induction l as [|[k' b'] l IH]; [reflexivity|].
  rewrite fmap_cons in Hk. apply not_elem_of_cons in Hk as [Hne Hk]. simpl in Hne.
  rewrite filter_cons. destruct (decide (P (k', b'))).
  - rewrite fmap_cons, filter_cons_False by (simpl; congruence). auto.
  - auto.
Qed.

(** In a list of verdicts with distinct keys, the key of an entry survives
    the selection of the positive verdicts once or not at all. *)
Lemma count_verdict {K} `{EqDecision K} (l : list (K * bool)) (k : K) (b : bool) :
  NoDup l.*1 -> (k, b) ∈ l ->
  length (filter (fun k' => k' = k) (filter (fun p => p.2 = true) l).*1) =
  if b then 1 else 0.
Proof.
  induction l as [|[k' b'] l IH]; intros Hnd Hin; [by apply elem_of_nil in Hin|].
  rewrite fmap_cons in Hnd. apply NoDup_cons in Hnd as [Hk' Hnd].
  apply elem_of_cons in Hin as [Heq|Hin].
  - inversion Heq; subst k' b'. destruct b.
    + rewrite filter_cons_True by reflexivity. rewrite fmap_cons. cbn [fst].
      rewrite filter_cons_True by reflexivity. cbn [length].
      by rewrite filter_key_absent.
    + rewrite filter_cons_False by (simpl; discriminate). by rewrite filter_key_absent.
  - assert (k ≠ k') as Hne.
    { intros ->. apply Hk'. apply list_elem_of_fmap. by exists (k', b). }
    rewrite filter_cons. destruct (decide ((k', b').2 = true)).
    + rewrite fmap_cons, filter_cons_False by (simpl; congruence). auto.
    + auto.
Qed.

Lemma verdicts_keys (gs : list ShardGroupInfo) d r (t : Z) :
  ((fun g => (groupKey d r g, expired r t g)) <$> gs).*1 = groupKey d r <$> gs.
Proof. rewrite <- list_fmap_compose. reflexivity. Qed.

Lemma verdicts_expired (gs : list ShardGroupInfo) d r (t : Z) :
  (filter (fun p => p.2 = true) ((fun g => (groupKey d r g, expired r t g)) <$> gs)).*1 =
  groupKey d r <$> List.filter (expired r t) gs.
Proof.
  induction gs as [|g gs IH]; [reflexivity|].
  rewrite fmap_cons. simpl List.filter.
  destruct (expired r t g) eqn:He.
  - rewrite filter_cons_True by reflexivity. rewrite !fmap_cons, IH. reflexivity.
  - rewrite filter_cons_False by (simpl; discriminate). exact IH.
Qed.

Lemma groupVerdicts_keys visits :
  (groupVerdicts visits).*1 = '(d, r) ← visits.*1; groupKey d r <$> rp_ShardGroups r.
Proof.
  unfold groupVerdicts. induction visits as [|[[d r] t] vs IH]; [reflexivity|].
  rewrite fmap_cons, !bind_cons, fmap_app, IH, verdicts_keys. reflexivity.
Qed.

Lemma groupVerdicts_expired visits :
  (filter (fun p => p.2 = true) (groupVerdicts visits)).*1 = expiredAt visits.
Proof.
  unfold groupVerdicts, expiredAt. induction visits as [|[[d r] t] vs IH]; [reflexivity|].
  rewrite !bind_cons, filter_app, fmap_app, IH, verdicts_expired. reflexivity.
Qed.

Lemma elem_of_groupVerdicts visits d r (t : Z) g :
  (d, r, t) ∈ visits -> g ∈ rp_ShardGroups r ->
  (groupKey d r g, expired r t g) ∈ groupVerdicts visits.
Proof.
  intros Hv Hg. unfold groupVerdicts. apply list_elem_of_bind.
  exists (d, r, t). split; [|assumption].
  apply list_elem_of_fmap. eauto.
Qed.

(** With distinct identifying triples, a group is attempted once if it is
    expired at the visit of its policy and not at all otherwise. *)
Lemma expiredAt_count dbs (c : C) d r (t : Z) g :
  NoDup (groupKeys dbs) ->
  (d, r, t) ∈ policyVisits dbs c -> g ∈ rp_ShardGroups r ->
  length (filter (fun k => k = groupKey d r g) (expiredAt (policyVisits dbs c))) =
  if expired r t g then 1 else 0.
Proof.
  intros Hnd Hv Hg. rewrite <- groupVerdicts_expired.
  apply count_verdict; [|by apply elem_of_groupVerdicts].
  rewrite groupVerdicts_keys, policyVisits_policies. exact Hnd.
Qed.

Lemma elem_of_ExpiredShardGroups r (t : Z) g :
  g ∈ ExpiredShardGroups r t <-> g ∈ rp_ShardGroups r /\ expired r t g = true.
Proof. unfold ExpiredShardGroups. rewrite !list_elem_of_In. apply filter_In. Qed.

Lemma filter_none {A} (P : A -> Prop) `{forall x, Decision (P x)} (l : list A) :
  (forall x, x ∈ l -> ~ P x) -> filter P l = [].
Proof.
  induction l as [|x l IH]; intros Hl; [reflexivity|].
  rewrite filter_cons_False by (apply Hl; left).
  apply IH. intros y Hy. apply Hl. by right.
Qed.

Lemma count_NoDup (ids : list N) (S : N) :
  NoDup ids -> length (filter (fun i => i = S) ids) <= 1.
Proof.
  induction 1 as [|i ids Hi Hnd IH]; [simpl; lia|].
  destruct (decide (i = S)) as [->|Hne].
  - rewrite filter_cons_True by reflexivity.
    assert (filter (fun i => i = S) ids = []) as ->; [|simpl; lia].
    apply filter_none. intros j Hj ->. contradiction.
  - rewrite filter_cons_False by assumption. exact IH.
Qed.

Lemma deleteShardGroupCalls_none evs :
  Forall (fun e => forall d p i err, e ≠ EvDeleteShardGroup d p i err) evs ->
  deleteShardGroupCalls evs = [].
Proof.
  unfold deleteShardGroupCalls. induction 1 as [|e evs He _ IH]; [reflexivity|].
  destruct e; simpl; try exact IH. exfalso. by eapply He.
Qed.

(** ** The claims about the two sweeps *)

(** C1. Orphan correctness: in a sweep of [deleteShards], [DeleteShard(S)]
    is called exactly for the shard IDs [S] that [ShardIDs()] returned and
    that belong to a shard group the metadata reports as deleted, that is,
    that are keys of the map built from [DeletedShardGroups()]; no other ID
    is passed to [DeleteShard]. *)
Theorem deleteShards_orphan_correctness w :
  let dbs := (Databases (meta w)).1 in
  let ids := (ShardIDs (store w)).1 in
  let evs := events deleteShards w in
  forall S : N,
    ((exists err, EvDeleteShard S err ∈ evs) <-> S ∈ ids /\ orphanCandidate dbs S) /\
    (orphanCandidate dbs S <-> is_Some (deletedShardIDs dbs !! S)).
Proof.
  intros dbs ids evs S.
  destruct (deleteShards_events w) as (tail & Hev & Hcalls & _).
  fold dbs ids evs in Hev, Hcalls. split; [|symmetry; apply deletedShardIDs_is_Some].
  rewrite <- elem_of_deleteShardCalls, Hev. simpl deleteShardCalls.
  rewrite Hcalls. unfold orphansAmong. rewrite list_elem_of_filter.
  rewrite deletedShardIDs_is_Some. tauto.
Qed.

(** C2. Expiry correctness: a sweep of [deleteShardGroups] visits every
    policy of every database once and reads the sweep time for it; its
    [DeleteShardGroup] calls are, in order, one call per shard group in the
    expired set of its policy at that time and nothing else. So when the
    identifying triples of the metadata are distinct,
    [DeleteShardGroup(D.Name, P.Name, G.ID)] is called exactly once if [G]
    is in the expired set of [P] at the sweep time and zero times
    otherwise. *)
Theorem deleteShardGroups_expiry w :
  let dbs := (Databases (meta w)).1 in
  let visits := policyVisits dbs (wall w) in
  let evs := events deleteShardGroups w in
  visits.*1 = policies dbs /\
  deleteShardGroupCalls evs = expiredAt visits /\
  (NoDup (groupKeys dbs) ->
   forall D P t G, (D, P, t) ∈ visits -> G ∈ rp_ShardGroups P ->
     (G ∈ ExpiredShardGroups P t ->
      timesDeleteShardGroup (db_Name D) (rp_Name P) (sg_ID G) evs = 1) /\
     (G ∉ ExpiredShardGroups P t ->
      timesDeleteShardGroup (db_Name D) (rp_Name P) (sg_ID G) evs = 0)).
Proof.
  intros dbs visits evs.
  destruct (deleteShardGroups_events w) as (tail & Hev & Hcalls & _).
  fold dbs visits evs in Hev, Hcalls.
  assert (Hc : deleteShardGroupCalls evs = expiredAt visits) by (by rewrite Hev).
  split; [apply policyVisits_policies|]. split; [exact Hc|].
  intros Hnd D P t G Hv HG. unfold timesDeleteShardGroup. rewrite Hc.
  pose proof (expiredAt_count dbs (wall w) D P t G Hnd Hv HG) as Hcount.
  fold visits in Hcount. unfold groupKey in Hcount. rewrite Hcount.
  rewrite elem_of_ExpiredShardGroups. destruct (expired P t G); split; intros Hx.
  - reflexivity.
  - exfalso. apply Hx. auto.
  - destruct Hx as [_ ?]. discriminate.
  - reflexivity.
Qed.

(** C3. Non-aborting failure handling: the deletion attempts of a sweep are
    fixed by what [Databases()], the clock and [ShardIDs()] returned, not by
    what the deletion calls return. If some [DeleteShardGroup] or
    [DeleteShard] call of a sweep returns an error, every item of the batch
    is still attempted; and the sweep returns to its caller with no error
    to hand over. *)
Theorem sweeps_continue_after_errors w :
  let dbs := (Databases (meta w)).1 in
  let ids := (ShardIDs (store w)).1 in
  let visits := policyVisits dbs (wall w) in
  let evsG := events deleteShardGroups w in
  let evsS := events deleteShards w in
  deleteShardGroupCalls evsG = expiredAt visits /\
  deleteShardCalls evsS = orphansAmong dbs ids /\
  (forall d p X e, EvDeleteShardGroup d p X (Some e) ∈ evsG ->
     forall D P t G, (D, P, t) ∈ visits -> G ∈ ExpiredShardGroups P t ->
       exists err, EvDeleteShardGroup (db_Name D) (rp_Name P) (sg_ID G) err ∈ evsG) /\
  (forall X e, EvDeleteShard X (Some e) ∈ evsS ->
     forall Y, Y ∈ ids -> orphanCandidate dbs Y ->
       exists err, EvDeleteShard Y err ∈ evsS) /\
  (exists w', deleteShardGroups w = (tt, w', evsG)) /\
  (exists w', deleteShards w = (tt, w', evsS)).
Proof.
  intros dbs ids visits evsG evsS.
  destruct (deleteShardGroups_events w) as (tailG & HevG & HcallsG & _).
  destruct (deleteShards_events w) as (tailS & HevS & HcallsS & _).
  fold dbs ids visits evsG evsS in HevG, HcallsG, HevS, HcallsS.
  assert (HG : deleteShardGroupCalls evsG = expiredAt visits) by (by rewrite HevG).
  assert (HS : deleteShardCalls evsS = orphansAmong dbs ids) by (by rewrite HevS).
  split; [exact HG|]. split; [exact HS|]. split; [|split; [|split]].
  - intros _ _ _ _ _ D P t G Hv Hx.
    apply elem_of_deleteShardGroupCalls. rewrite HG.
    unfold expiredAt. apply list_elem_of_bind. exists (D, P, t). split; [|assumption].
    apply (list_elem_of_fmap_2 (groupKey D P)). assumption.
  - intros _ _ _ Y HY Horphan.
    apply elem_of_deleteShardCalls. rewrite HS.
    unfold orphansAmong. apply list_elem_of_filter. split; [|assumption].
    by apply deletedShardIDs_is_Some.
  - subst evsG. unfold events. destruct (deleteShardGroups w) as [[[] w'] evs]. eauto.
  - subst evsS. unfold events. destruct (deleteShards w) as [[[] w'] evs]. eauto.
Qed.

(** C7. Loop independence: a sweep of [deleteShardGroups] calls neither
    [ShardIDs] nor [DeleteShard] and leaves the shard store as it was; a
    sweep of [deleteShards] never calls [DeleteShardGroup]. *)
Theorem sweeps_independent w :
  Forall (fun e => isStoreCall e = false) (events deleteShardGroups w) /\
  store (final deleteShardGroups w) = store w /\
  Forall (fun e => forall d p i err, e ≠ EvDeleteShardGroup d p i err)
    (events deleteShards w) /\
  deleteShardGroupCalls (events deleteShards w) = [].
Proof.
  destruct (deleteShardGroups_events w) as (tailG & HevG & _ & HfG).
  destruct (deleteShards_events w) as (tailS & HevS & _ & HfS).
  split; [|split; [apply deleteShardGroups_store|]].
  - rewrite HevG. constructor; [reflexivity|].
    eapply Forall_impl; [exact HfG|]. intros [] He; done.
  - assert (Hno : Forall (fun e => forall d p i err, e ≠ EvDeleteShardGroup d p i err)
                    (events deleteShards w)).
    { rewrite HevS. repeat (constructor; [discriminate|]).
      eapply Forall_impl; [exact HfS|]. intros [] He; done. }
    split; [exact Hno|]. by apply deleteShardGroupCalls_none.
Qed.

(** C8. Duplicate shard IDs in the orphan map: when a shard ID is stored
    more than once while [deleteShards] fills [deletedShardIDs], the entry
    stored last is the one the map holds, and building the map has no error
    case. [DeleteShard(S)] is then called once for each time [ShardIDs()]
    lists [S], however many deleted groups name it: at most once per sweep
    for a store that lists each shard once. *)
Theorem deletedShardIDs_last_entry_wins w :
  let dbs := (Databases (meta w)).1 in
  let ids := (ShardIDs (store w)).1 in
  let evs := events deleteShards w in
  (forall earlier later S di,
     orphanEntries dbs = earlier ++ (S, di) :: later -> S ∉ later.*1 ->
     deletedShardIDs dbs !! S = Some di) /\
  (forall S, timesDeleteShard S evs =
     if decide (is_Some (deletedShardIDs dbs !! S))
     then length (filter (fun i => i = S) ids) else 0) /\
  (NoDup ids -> forall S, timesDeleteShard S evs <= 1).
Proof.
  intros dbs ids evs.
  destruct (deleteShards_events w) as (tail & Hev & Hcalls & _).
  fold dbs ids evs in Hev, Hcalls.
  assert (Hc : deleteShardCalls evs = orphansAmong dbs ids) by (by rewrite Hev).
  assert (Hcount : forall S, timesDeleteShard S evs =
     if decide (is_Some (deletedShardIDs dbs !! S))
     then length (filter (fun i => i = S) ids) else 0).
  { intros S. unfold timesDeleteShard. rewrite Hc. unfold orphansAmong.
    rewrite list_filter_filter. destruct (decide _) as [Hin|Hout].
    - f_equal. apply list_filter_iff. intros i. split; [tauto|]. intros ->. auto.
    - rewrite filter_none; [reflexivity|].
      intros i _ [-> Hi]. contradiction. }
  split; [|split; [exact Hcount|]].
  - intros earlier later S di Hentries Hlater.
    rewrite deletedShardIDs_entries, Hentries.
    apply (lookup_store_last earlier later ∅ S di Hlater).
  - intros Hnd S. rewrite Hcount. destruct (decide _); [|lia].
    by apply count_NoDup.
Qed.

End SweepFacts.

(** ** The sweeps on the test doubles *)

Section SweepExamples.
Import Fixtures.

(** The two sweeps over [world0], event by event. *)
Example deleteShardGroups_world0 :
  events deleteShardGroups world0 =
  [EvDatabases;
   EvNow 0;
   EvDeleteShardGroup "mydb" "autogen" 1 (Some "meta unavailable");
   EvLog (LogFailedDeleteShardGroup 1 "mydb" "autogen" "meta unavailable");
   EvDeleteShardGroup "mydb" "autogen" 4 None;
   EvLog (LogDeletedShardGroup 4 "mydb" "autogen");
   EvNow hour].
Proof. vm_compute. reflexivity. Qed.

Example deleteShards_world0 :
  events deleteShards world0 =
  [EvLog LogShardDeletionCheck;
   EvDatabases;
   EvShardIDs;
   EvDeleteShard 10 (Some "disk busy");
   EvLog (LogFailedDeleteShard 10 "mydb" "autogen" "disk busy");
   EvDeleteShard 11 None;
   EvLog (LogShardDeleted 11 "mydb" "weekly")].
Proof. vm_compute. reflexivity. Qed.

(** Scenario 2 of the specification: shards 10 and 11 are orphans and are
    deleted, shard 12 is not touched. *)
Lemma deleteShards_orphan_correctness_witness :
  (exists err, EvDeleteShard 11 err ∈ events deleteShards world0) /\
  ~ (exists err, EvDeleteShard 12 err ∈ events deleteShards world0).
Proof.
  split.
  - apply (deleteShards_orphan_correctness world0 11%N). split; [in_list|].
    exists mydb, weekly, G5, {| sh_ID := 11 |}. repeat split; in_list.
  - intros Hcall.
    apply (deleteShards_orphan_correctness world0 12%N) in Hcall as [_ Ho].
    apply (deleteShards_orphan_correctness world0 12%N) in Ho.
    vm_compute in Ho. destruct Ho as [di Hdi]. discriminate Hdi.
Defined.

(** Scenario 1 of the specification: [G1] is expired and deleted once; the
    live group [G3] is not. *)
Lemma deleteShardGroups_expiry_witness :
  timesDeleteShardGroup "mydb" "autogen" 1 (events deleteShardGroups world0) = 1 /\
  timesDeleteShardGroup "mydb" "autogen" 3 (events deleteShardGroups world0) = 0.
Proof.
  destruct (deleteShardGroups_expiry world0) as (_ & _ & Hcount).
  assert (Hnd : NoDup (groupKeys [mydb])) by by_computing.
  split.
  - apply (Hcount Hnd mydb autogen 0%Z G1); [in_list | in_list | in_list].
  - apply (Hcount Hnd mydb autogen 0%Z G3); [in_list | in_list |].
    rewrite elem_of_ExpiredShardGroups. intros [_ Hx]. discriminate Hx.
Defined.

(** The first deletion of each sweep over [world0] fails; the later items
    of the batch are attempted all the same. *)
Lemma sweeps_continue_after_errors_witness :
  (exists err, EvDeleteShardGroup "mydb" "autogen" 4 err ∈ events deleteShardGroups world0) /\
  (exists err, EvDeleteShard 11 err ∈ events deleteShards world0).
Proof.
  destruct (sweeps_continue_after_errors world0) as (_ & _ & HG & HS & _).
  split.
  - apply (HG "mydb" "autogen" 1%N "meta unavailable") with (D := mydb) (P := autogen)
      (t := 0%Z) (G := G4); in_list.
  - apply (HS 10%N "disk busy"); [in_list | in_list |].
    exists mydb, weekly, G5, {| sh_ID := 11 |}. repeat split; in_list.
Defined.

(** Shard 11 is named by two deleted groups: the entry of the later one,
    under policy [weekly], stays, and the shard is deleted once. *)
Lemma deletedShardIDs_last_entry_wins_witness :
  deletedShardIDs [mydb] !! 11%N = Some {| db := "mydb"; rp := "weekly" |} /\
  timesDeleteShard 11 (events deleteShards world0) <= 1.
Proof.
  destruct (deletedShardIDs_last_entry_wins world0) as (Hlast & _ & Honce).
  split.
  - apply (Hlast [(10%N, {| db := "mydb"; rp := "autogen" |});
                  (11%N, {| db := "mydb"; rp := "autogen" |})] []).
    + reflexivity.
    + apply not_elem_of_nil.
  - apply Honce. by_computing.
Defined.

End SweepExamples.

(** ** Go's string order and [sort.Strings] *)

Lemma string_lt_spec (a b : string) : string_lt a b <-> String_as_OT.lt a b.
Proof.
  unfold string_lt, String.ltb. rewrite <- String_as_OT.cmp_lt.
  unfold String_as_OT.cmp. destruct (String.compare a b); split; congruence.
Qed.

Lemma string_le_spec (a b : string) : string_le a b <-> a = b \/ string_lt a b.
Proof.
  unfold string_le, string_lt, String.leb, String.ltb.
  destruct (String.compare a b) eqn:Hc.
  - apply String_as_OT.cmp_eq in Hc. tauto.
  - tauto.
  - split; [discriminate|]. intros [->|?]; [|discriminate].
    assert (String.compare b b = Eq) as Hb by (by apply String_as_OT.cmp_eq).
    congruence.
Qed.

Lemma string_lt_irrefl (a : string) : ~ string_lt a a.
Proof.
  rewrite string_lt_spec. intros Hlt.
  by apply (String_as_OT.lt_not_eq _ _ Hlt).
Qed.

#[global] Instance string_lt_trans : Transitive string_lt.
Proof.
  intros a b c. rewrite !string_lt_spec. apply String_as_OT.lt_trans.
Qed.

#[global] Instance string_le_trans : Transitive string_le.
Proof.
  intros a b c. rewrite !string_le_spec.
  intros [->|Hab] [->|Hbc]; auto. right. by transitivity b.
Qed.

#[global] Instance string_le_total : Total string_le.
Proof. intros a b. apply String.leb_total. Qed.

#[global] Instance string_le_antisym : AntiSymm (=) string_le.
Proof. intros a b. apply String.leb_antisym. Qed.

(** The sorted slice is fixed by the elements of the slice alone. *)
Lemma sort_Strings_Permutation (a b : list string) :
  a ≡ₚ b -> sort_Strings a = sort_Strings b.
Proof.
  intros Hab. unfold sort_Strings.
  apply (Sorted_unique string_le); try apply Sorted_merge_sort; try apply _.
  by rewrite !merge_sort_Permutation.
Qed.

Lemma collectKeys_ranged (ranged : list string) : collectKeys ranged = ranged.
Proof.
  unfold collectKeys.
  assert (forall acc, fold_left (fun a k => a ++ [k]) ranged acc = acc ++ ranged) as Hacc.
  { induction ranged as [|k ks IH]; intros acc; simpl.
    - by rewrite app_nil_r.
    - rewrite IH, <- app_assoc. reflexivity. }
  apply Hacc.
Qed.

(** Sorted without repetition is strictly ascending. *)
Lemma sort_Strings_ascending (a : list string) :
  NoDup a -> StronglySorted string_lt (sort_Strings a).
Proof.
  intros Hnd. unfold sort_Strings.
  assert (Hs : StronglySorted string_le (merge_sort string_le a))
    by (apply StronglySorted_merge_sort; apply _).
  assert (Hnd' : NoDup (merge_sort string_le a))
    by (by rewrite merge_sort_Permutation).
  induction Hs as [|x l Hs IH Hx]; [constructor|].
  apply NoDup_cons in Hnd' as [Hxl Hnd'].
  constructor; [by apply IH|].
  apply Forall_forall. intros y Hy.
  rewrite Forall_forall in Hx. specialize (Hx y Hy).
  apply string_le_spec in Hx as [->|Hlt]; [contradiction|assumption].
Qed.

(** ** Series identity of rows *)

Section RowFacts.
Import Models.
Context {H : Type} `{InlineFNV64a H} {I : Type}.

Implicit Types (z o : Row I).

(** The keys are hashed in sorted order, however the map was ranged over. *)
Lemma tagsKeys_sorted z (ranged : list string) :
  rangesOver ranged (Tags z) ->
  tagsKeys z ranged = sort_Strings (map_to_list (Tags z)).*1.
Proof.
  intros Hr. unfold tagsKeys. rewrite collectKeys_ranged.
  by apply sort_Strings_Permutation.
Qed.

(** C9. [SameSeries] is symmetric and well defined: [tagsHash] hashes the
    tags in the sorted order of their keys, so it is the same for every
    order in which the map is ranged over and for rows with the same
    [Tags]; hence [z.SameSeries(o)] equals [o.SameSeries(z)], whatever
    order each call meets. *)
Theorem SameSeries_symmetric z o (rz rz' ro ro' : list string) :
  rangesOver rz (Tags z) -> rangesOver rz' (Tags z) ->
  rangesOver ro (Tags o) -> rangesOver ro' (Tags o) ->
  tagsHash z rz = tagsHash z rz' /\
  (Tags z = Tags o -> tagsHash z rz = tagsHash o ro) /\
  SameSeries z o rz ro = SameSeries o z ro' rz'.
Proof.
  intros Hz Hz' Ho Ho'.
  assert (Hwd : forall (a : Row I) ra (b : Row I) rb,
    rangesOver ra (Tags a) -> rangesOver rb (Tags b) -> Tags a = Tags b ->
    tagsHash a ra = tagsHash b rb).
  { intros a ra b rb Ha Hb Hab. unfold tagsHash.
    rewrite (tagsKeys_sorted a ra Ha), (tagsKeys_sorted b rb Hb), Hab. reflexivity. }
  split; [by apply Hwd|]. split; [by apply Hwd|].
  unfold SameSeries.
  rewrite (Hwd z rz z rz' Hz Hz' eq_refl), (Hwd o ro o ro' Ho Ho' eq_refl).
  f_equal; apply bool_decide_ext; split; congruence.
Qed.

End RowFacts.

Section RowExamples.
Import Models Fixtures.

(** The hash of the tags of [rowA], in either order of ranging. *)
Example tagsHash_rowA :
  tagsHash rowA ["host"; "region"] = 14689727869534019605%N /\
  tagsHash rowA ["region"; "host"] = 14689727869534019605%N.
Proof. split; vm_compute; reflexivity. Qed.

(** Two rows of series [cpu] with the same tags, ranged over in opposite
    orders by the two calls. *)
Lemma SameSeries_symmetric_witness :
  SameSeries rowA rowB ["host"; "region"] ["region"; "host"] = true /\
  SameSeries rowB rowA ["host"; "region"] ["region"; "host"] = true.
Proof.
  assert (Hperm : forall ks : list string,
    bool_decide (ks ≡ₚ ["host"; "region"]) = true ->
    rangesOver ks (Tags rowA) /\ rangesOver ks (Tags rowB)).
  { intros ks Hks. apply bool_decide_eq_true in Hks.
    unfold rangesOver. split; rewrite Hks; by_computing. }
  destruct (Hperm ["host"; "region"] eq_refl) as [HA1 HB1].
  destruct (Hperm ["region"; "host"] eq_refl) as [HA2 HB2].
  destruct (SameSeries_symmetric rowA rowB ["host"; "region"] ["region"; "host"]
              ["region"; "host"] ["host"; "region"] HA1 HA2 HB2 HB1) as (_ & _ & Hsym).
  split; [|rewrite <- Hsym]; vm_compute; reflexivity.
Defined.

End RowExamples.

(** ** The [/debug/vars] handler *)

Section ExpvarFacts.
Import Debug.
Context {Statistic : Type}.
Variable stat_Name : Statistic -> string.
Variable stat_Tags : Statistic -> gmap string string.
Variable json_Marshal : option Statistic -> option string.
Variable json_MarshalError : string -> string.
Variable bytes_TrimSpace : string -> string.

Abbreviation statKey := (statKey stat_Name stat_Tags).
Abbreviation buildStatMap := (buildStatMap stat_Name stat_Tags).
Abbreviation lastWithKey := (lastWithKey stat_Name stat_Tags).
Abbreviation emitKey := (emitKey json_Marshal bytes_TrimSpace).
Abbreviation serveExpvar :=
  (serveExpvar stat_Name stat_Tags json_Marshal json_MarshalError bytes_TrimSpace).

Lemma buildStatMap_snoc (stats : list Statistic) (s : Statistic) :
  buildStatMap (stats ++ [s]) = <[statKey s := s]> (buildStatMap stats).
Proof. unfold Debug.buildStatMap. by rewrite fold_left_app. Qed.

(** The map holds, under each key, the last statistic that produced it. *)
Lemma buildStatMap_lookup (stats : list Statistic) (key : string) (s : Statistic) :
  buildStatMap stats !! key = Some s <-> lastWithKey stats key s.
Proof.
  revert s. induction stats as [|x stats IH] using rev_ind; intros s.
  - split; [discriminate|]. intros (before & after & Heq & _).
    by destruct before.
  - rewrite buildStatMap_snoc. destruct (decide (statKey x = key)) as [Hx|Hx].
    + rewrite Hx, lookup_insert_eq. split.
      * intros [= <-]. exists stats, []. split; [reflexivity|]. split; [assumption|].
        intros s' Hs'. by apply elem_of_nil in Hs'.
      * intros (before & after & Heq & Hs & Hafter).
        destruct after as [|y after _] using rev_ind.
        -- apply app_inj_tail in Heq as [_ ->]. reflexivity.
        -- rewrite app_comm_cons, app_assoc in Heq.
           apply app_inj_tail in Heq as [_ ->].
           exfalso. apply (Hafter y); [|assumption].
           apply elem_of_app. right. left.
    + rewrite lookup_insert_ne by assumption. rewrite IH. split.
      * intros (before & after & -> & Hs & Hafter).
        exists before, (after ++ [x]). split; [by rewrite <- app_assoc|].
        split; [assumption|]. intros s' Hs'.
        apply elem_of_app in Hs' as [Hs'|Hs']; [by apply Hafter|].
        apply list_elem_of_singleton in Hs' as ->. assumption.
      * intros (before & after & Heq & Hs & Hafter).
        destruct after as [|y after _] using rev_ind.
        -- apply app_inj_tail in Heq as [_ ->]. contradiction.
        -- rewrite app_comm_cons, app_assoc in Heq.
           apply app_inj_tail in Heq as [-> ->].
           exists before, after. split; [reflexivity|]. split; [assumption|].
           intros s' Hs'. apply Hafter. apply elem_of_app. by left.
Qed.

(** What one round of the second loop adds to the entries written. *)
Lemma emitted_emitKey (statMap : gmap string Statistic) (idx : nat) (key : string)
    (rest : list Output) :
  emitted (emitKey statMap idx key ++ rest) =
  match json_Marshal (statMap !! key) with
  | Some out => [(key, bytes_TrimSpace out)]
  | None => []
  end ++ emitted rest.
Proof.
  unfold Debug.emitKey. destruct (json_Marshal (statMap !! key)) as [out|]; [|reflexivity].
  destruct (bool_decide (idx ≠ 0)); reflexivity.
Qed.

Lemma emitted_loop (statMap : gmap string Statistic) (keys : list string)
    (f : nat -> string -> list Output) (rest : list Output) :
  (forall i key, exists idx, f i key = emitKey statMap idx key) ->
  emitted (mjoin (imap f keys) ++ rest) =
  omap (fun key => out ← json_Marshal (statMap !! key); Some (key, bytes_TrimSpace out)) keys
  ++ emitted rest.
Proof.
  revert f. induction keys as [|key keys IH]; intros f Hf; [reflexivity|].
  rewrite imap_cons. simpl mjoin. rewrite <- app_assoc.
  destruct (Hf 0 key) as [idx ->]. rewrite emitted_emitKey.
  rewrite IH by (intros i k; apply (Hf (S i) k)).
  simpl omap. destruct (json_Marshal (statMap !! key)); reflexivity.
Qed.

(** The entries of a response, from the sorted keys. *)
Lemma serveExpvar_emitted (stats : list Statistic) (ranged : list string) :
  emitted (serveExpvar (inl stats) ranged) =
  omap (fun key =>
          out ← json_Marshal (buildStatMap stats !! key);
          Some (key, bytes_TrimSpace out))
       (sort_Strings ranged).
Proof.
  unfold Debug.serveExpvar. rewrite collectKeys_ranged.
  change (emitted ([?a; ?b] ++ ?l)) with (emitted l).
  rewrite (emitted_loop (buildStatMap stats)) by eauto.
  simpl emitted. by rewrite app_nil_r.
Qed.

Lemma omap_keys_sorted {B} (h : string -> option (string * B)) (keys : list string) :
  (forall key p, h key = Some p -> p.1 = key) ->
  StronglySorted string_lt keys ->
  StronglySorted string_lt (omap h keys).*1.
Proof.
  intros Hh. induction 1 as [|key keys Hs IH Hkey]; [constructor|].
  simpl omap. destruct (h key) as [p|] eqn:Hp; [|exact IH].
  rewrite fmap_cons, (Hh _ _ Hp). constructor; [exact IH|].
  apply Forall_forall. intros k Hk.
  apply list_elem_of_fmap in Hk as (p' & -> & Hk).
  apply list_elem_of_omap in Hk as (k' & Hk' & Hg).
  rewrite (Hh _ _ Hg). rewrite Forall_forall in Hkey. by apply Hkey.
Qed.

(** C10. [serveExpvar] writes its entries in ascending order of their
    name-plus-tags key, each key once; the entry under a key is the
    marshalled form of the last statistic that produced this key, and the
    statistics that produced it before are not written. *)
Theorem serveExpvar_ascending_last_wins (stats : list Statistic) (ranged : list string) :
  rangesOver ranged (buildStatMap stats) ->
  let out := serveExpvar (inl stats) ranged in
  StronglySorted string_lt (emitted out).*1 /\
  (forall key b, (key, b) ∈ emitted out <->
     exists s o, lastWithKey stats key s /\
                 json_Marshal (Some s) = Some o /\ b = bytes_TrimSpace o).
Proof.
  intros Hr out. subst out. rewrite serveExpvar_emitted.
  assert (Hnd : NoDup ranged).
  { unfold rangesOver in Hr. rewrite Hr. apply NoDup_fst_map_to_list. }
  assert (Hkeys : forall key, key ∈ sort_Strings ranged <->
                              is_Some (buildStatMap stats !! key)).
  { intros key. unfold sort_Strings. rewrite merge_sort_Permutation, Hr.
    rewrite list_elem_of_fmap. split.
    - intros ([k s] & -> & Hin). apply elem_of_map_to_list in Hin. eauto.
    - intros [s Hs]. exists (key, s). split; [reflexivity|].
      by apply elem_of_map_to_list. }
  split.
  { apply omap_keys_sorted; [|by apply sort_Strings_ascending].
    intros key p Hp. destruct (json_Marshal _); inversion Hp. reflexivity. }
  intros key b. rewrite list_elem_of_omap. split.
  - intros (k & Hk & Hg). apply Hkeys in Hk as [s Hs]. rewrite Hs in Hg.
    destruct (json_Marshal (Some s)) as [o|] eqn:Ho; inversion Hg; subst.
    exists s, o. split; [by apply buildStatMap_lookup|]. auto.
  - intros (s & o & Hlast & Ho & ->). apply buildStatMap_lookup in Hlast.
    exists key. split; [apply Hkeys; eauto|].
    rewrite Hlast. simpl. rewrite Ho. reflexivity.
Qed.

End ExpvarFacts.

Section ExpvarExamples.
Import Debug Fixtures.

(** A response, call by call on the writer. *)
Example serveExpvar_response :
  serveExpvar st_Name st_Tags fakeMarshal fakeMarshalError fakeTrimSpace
    (inl [statShard1; statHttpd; statShard1'])
    ["shard:/d/1:1"; "httpd::8086"] =
  [HeaderSet "Content-Type" "application/json; charset=utf-8";
   Fprintln "{";
   FprintfKey "httpd::8086"; Write "{name:httpd,v:3}";
   Fprintln ",";
   FprintfKey "shard:/d/1:1"; Write "{name:shard,v:new}";
   Fprintln (LF +:+ "}")].
Proof. vm_compute. reflexivity. Qed.

(** When the monitor fails the handler serves the error and nothing else. *)
Example serveExpvar_error :
  serveExpvar st_Name st_Tags fakeMarshal fakeMarshalError fakeTrimSpace
    (inr "monitor closed") [] =
  [HeaderAdd "Content-Type" "application/json";
   WriteHeader 500;
   Write "{error:monitor closed}"].
Proof. vm_compute. reflexivity. Qed.

(** Two statistics of shard 1 and one of the HTTP service: the later
    statistic of the shard is the one written, after the entry of [httpd]. *)
Lemma serveExpvar_ascending_last_wins_witness :
  emitted (serveExpvar st_Name st_Tags fakeMarshal fakeMarshalError fakeTrimSpace
             (inl [statShard1; statHttpd; statShard1'])
             ["shard:/d/1:1"; "httpd::8086"]) =
    [("httpd::8086", "{name:httpd,v:3}"); ("shard:/d/1:1", "{name:shard,v:new}")] /\
  StronglySorted string_lt ["httpd::8086"; "shard:/d/1:1"].
Proof.
  assert (Hr : rangesOver ["shard:/d/1:1"; "httpd::8086"]
                 (buildStatMap st_Name st_Tags [statShard1; statHttpd; statShard1']))
    by (unfold rangesOver; by_computing).
  destruct (serveExpvar_ascending_last_wins st_Name st_Tags fakeMarshal fakeMarshalError
              fakeTrimSpace _ _ Hr) as [Hsorted _].
  split; [vm_compute; reflexivity|exact Hsorted].
Defined.

End ExpvarExamples.

(** ** The life of the service *)

Section LifecycleFacts.
Context {M T C : Type} `{MetaClient M} `{TSDBStore T} `{Clock C}.

Implicit Types (s : Service M T C) (r : Reaper) (a : Action).

(** Open the step function down to the fields of the state. *)
Ltac open_step H :=
  unfold step, serviceDeleteShardGroups, serviceDeleteShards, serviceLoop,
    Close_return, loop, tick in H.

(** Split on every [match] a hypothesis still holds. *)
Ltac split_matches H :=
  repeat match type of H with
         | context [match ?x with _ => _ end] => destruct x eqn:?
         end.

Lemma collaboratorCalls_perform_log l s :
  collaboratorCalls (trace (perform (logger_Print l) s)) = collaboratorCalls (trace s).
Proof.
  unfold collaboratorCalls. simpl. rewrite List.filter_app. simpl. apply app_nil_r.
Qed.

(** Goals about the fields of a state whose control part is known. *)
Ltac lifecycle_solve :=
  unfold lifecycle_inv, wg_Done, Close_call, loop, owes in *; simpl in *;
  repeat match goal with
         | H : _ /\ _ |- _ => destruct H
         | H : _ && _ = true |- _ => apply andb_true_iff in H
         | H : context [if ?b then _ else _] |- _ => destruct b eqn:?; simpl in *
         | |- context [if ?b then _ else _] => destruct b eqn:?; simpl in *
         end;
  repeat split; intros; simpl in *;
  repeat match goal with
         | H : ?P -> _ |- _ =>
             let HP := fresh in
             assert (HP : P) by (first [reflexivity | lia | tauto]);
             specialize (H HP); clear HP
         | H : _ /\ _ |- _ => destruct H
         end;
  repeat match goal with
         | H : loopShardGroups ?s = _ |- context [loopShardGroups ?s] => rewrite H
         | H : loopShards ?s = _ |- context [loopShards ?s] => rewrite H
         end;
  try congruence; try lia; try tauto.

Lemma lifecycle_inv_Open interval (w : World M T C) :
  lifecycle_inv (Open (NewService interval w)).
Proof. lifecycle_solve. Qed.

Lemma lifecycle_inv_step a s s' :
  lifecycle_inv s -> step a s = Some s' -> lifecycle_inv s'.
Proof.
  intros Hinv Hstep.
  unfold step in Hstep. destruct (panicked s) eqn:Hp; [discriminate|].
  unfold lifecycle_inv, loop in Hinv. rewrite Hp in Hinv.
  destruct a as [r mv|r| | |]; try destruct r; try destruct mv; open_step Hstep;
    remember (loopShardGroups s) as pcG eqn:HG in *;
    remember (loopShards s) as pcS eqn:HS in *;
    destruct pcG, pcS; split_matches Hstep;
    try discriminate Hstep; injection Hstep as <-;
    unfold lifecycle_inv, wg_Done, Close_call, loop; simpl;
    symmetry in HG, HS; rewrite ?HG, ?HS; lifecycle_solve.
Qed.

Lemma lifecycle_inv_run acts s s' :
  lifecycle_inv s -> run acts s = Some s' -> lifecycle_inv s'.
Proof.
  revert s. induction acts as [|a acts IH]; intros s Hinv Hrun; simpl in Hrun.
  - by injection Hrun as <-.
  - destruct (step a s) as [s1|] eqn:Hstep; [|discriminate].
    eapply IH; [|exact Hrun]. eapply lifecycle_inv_step; eassumption.
Qed.

Lemma reachable_inv s : reachable s -> lifecycle_inv s.
Proof.
  intros (interval & w & acts & Hrun).
  eapply lifecycle_inv_run; [apply lifecycle_inv_Open|exact Hrun].
Qed.

Lemma both_exited_step a s s' :
  loop ShardGroups s = Exited -> loop Shards s = Exited -> step a s = Some s' ->
  loop ShardGroups s' = Exited /\ loop Shards s' = Exited /\
  collaboratorCalls (trace s') = collaboratorCalls (trace s).
Proof.
  unfold loop. intros HG HS Hstep.
  unfold step in Hstep. destruct (panicked s) eqn:Hp; [discriminate|].
  destruct a as [r mv|r| | |]; try destruct r; try destruct mv; open_step Hstep;
    rewrite ?HG, ?HS in Hstep; try discriminate Hstep.
  - injection Hstep as <-. auto.
  - injection Hstep as <-.
    unfold Close_call. destruct (done _); simpl; rewrite HG, HS;
      (repeat split; [apply collaboratorCalls_perform_log]).
  - destruct (closing s && _); [|discriminate]. injection Hstep as <-. auto.
Qed.

Lemma both_exited_run acts s s' :
  loop ShardGroups s = Exited -> loop Shards s = Exited -> run acts s = Some s' ->
  loop ShardGroups s' = Exited /\ loop Shards s' = Exited /\
  collaboratorCalls (trace s') = collaboratorCalls (trace s).
Proof.
  revert s. induction acts as [|a acts IH]; intros s HG HS Hrun; simpl in Hrun.
  - injection Hrun as <-. auto.
  - destruct (step a s) as [s1|] eqn:Hstep; [|discriminate].
    destruct (both_exited_step a s s1 HG HS Hstep) as (HG1 & HS1 & Hcalls1).
    destruct (IH s1 HG1 HS1 Hrun) as (HG' & HS' & Hcalls').
    rewrite Hcalls', Hcalls1. auto.
Qed.

(** A loop that has returned stays so. *)
Lemma exited_step r a s s' :
  loop r s = Exited -> step a s = Some s' -> loop r s' = Exited.
Proof.
  intros Hr Hstep. unfold step in Hstep. destruct (panicked s); [discriminate|].
  destruct a as [r' mv|r'| | |]; try destruct r'; try destruct mv; destruct r;
    open_step Hstep; unfold loop in *; split_matches Hstep;
    try discriminate Hstep; injection Hstep as <-;
    unfold wg_Done, Close_call; simpl;
    repeat match goal with |- context [if ?b then _ else _] => destruct b end;
    simpl; congruence.
Qed.

Lemma exited_run r acts s s' :
  loop r s = Exited -> run acts s = Some s' -> loop r s' = Exited.
Proof.
  revert s. induction acts as [|a acts IH]; intros s Hr Hrun; simpl in Hrun.
  - by injection Hrun as <-.
  - destruct (step a s) as [s1|] eqn:Hstep; [|discriminate].
    eapply IH; [|exact Hrun]. eapply exited_step; eassumption.
Qed.

(** The step of loop [r], whichever of the two it is. *)
Lemma step_loop r mv s :
  panicked s = false ->
  step (ActLoop r mv) s =
  serviceLoop r (if r is ShardGroups then deleteShardGroups else deleteShards) mv s.
Proof. intros Hp. unfold step. rewrite Hp. by destruct r. Qed.

Lemma step_not_panicked a s s' : step a s = Some s' -> panicked s = false.
Proof. unfold step. by destruct (panicked s). Qed.

(** ** The claims about the life of the service *)

(** C4. Clean shutdown: in every state of an opened service in which a
    [Close] call has returned, both reaper loops have returned, and whatever
    happens afterwards no further call on [MetaClient] or [TSDBStore] is
    made and the loops stay returned. A loop that takes the [done] case of
    its [select] returns at once, without a sweep, and never sweeps
    again. *)
Theorem clean_shutdown :
  (forall s, reachable s -> 0 < closed s ->
     (loop ShardGroups s = Exited /\ loop Shards s = Exited) /\
     (forall acts s', run acts s = Some s' ->
        collaboratorCalls (trace s') = collaboratorCalls (trace s) /\
        loop ShardGroups s' = Exited /\ loop Shards s' = Exited)) /\
  (forall s r s1, step (ActLoop r MvReturn) s = Some s1 ->
     done s = true /\ loop r s1 = Exited /\ trace s1 = trace s /\
     (forall acts s2, run acts s1 = Some s2 ->
        loop r s2 = Exited /\ step (ActLoop r MvSweep) s2 = None)).
Proof.
  split.
  - intros s Hreach Hclosed.
    destruct (reachable_inv s Hreach) as (Hexit & _).
    destruct (Hexit Hclosed) as [HG HS]. split; [auto|].
    intros acts s' Hrun.
    destruct (both_exited_run acts s s' HG HS Hrun) as (? & ? & ?). auto.
  - intros s r s1 Hstep.
    assert (Hfacts : done s = true /\ loop r s1 = Exited /\ trace s1 = trace s).
    { rewrite step_loop in Hstep by (by eapply step_not_panicked).
      unfold serviceLoop in Hstep.
      destruct (loop r s); try discriminate. destruct (done s); [|discriminate].
      injection Hstep as <-. unfold wg_Done.
      destruct r; simpl; destruct (_ <? _)%Z; auto. }
    destruct Hfacts as (Hd & Hr & Ht). repeat split; try assumption.
    + eapply exited_run; eassumption.
    + match goal with Hrun : run _ s1 = Some _ |- _ =>
        pose proof (exited_run r _ s1 _ Hr Hrun) as Hr2
      end.
      destruct (panicked s2) eqn:Hp2; [unfold step; by rewrite Hp2|].
      rewrite step_loop by assumption. unfold serviceLoop. by rewrite Hr2.
Qed.

(** C5, as the code has it. The service adds one debug route, [POST
    /debug/enforce_retention]; its handler sends on the force channel of the
    shard-group loop and then on that of the shard loop. Each send is a
    handoff on an unbuffered channel: it happens exactly when the handler
    has reached it and the target loop waits in its [select], whatever the
    ticker and the other loop do; it makes the target loop, and no other,
    start a sweep; and the handler moves on once the handoff is taken,
    before the sweep has made any call. *)
Theorem force_trigger_handoff s :
  AddDebugHandler = [("POST", "/debug/enforce_retention", [ShardGroups; Shards])] /\
  (forall s', step ActRequest s = Some s' ->
     handlers s' = handlers s ++ [[ShardGroups; Shards]]) /\
  (forall r i rest, panicked s = false ->
     handlers s !! i = Some (r :: rest) -> loop r s = Selecting ->
     is_Some (step (ActLoop r (MvForce i)) s)) /\
  (forall r i s', step (ActLoop r (MvForce i)) s = Some s' ->
     loop r s = Selecting /\
     (exists rest, handlers s !! i = Some (r :: rest) /\
                   handlers s' = <[i := rest]> (handlers s)) /\
     loop r s' = Sweeping /\
     (forall r', r' <> r -> loop r' s' = loop r' s) /\
     trace s' = trace s /\ world s' = world s).
Proof.
  split; [reflexivity|]. split; [|split].
  - intros s' Hstep. unfold step in Hstep. destruct (panicked s); [discriminate|].
    by injection Hstep as <-.
  - intros r i rest Hp Hi Hr. rewrite step_loop by assumption.
    unfold serviceLoop. rewrite Hr, Hi.
    rewrite bool_decide_eq_true_2 by reflexivity. eauto.
  - intros r i s' Hstep.
    rewrite step_loop in Hstep by (by eapply step_not_panicked).
    unfold serviceLoop in Hstep.
    destruct (loop r s) eqn:Hr; try discriminate.
    destruct (handlers s !! i) as [[|r0 rest]|] eqn:Hi; try discriminate.
    destruct (bool_decide (r0 = r)) eqn:Hr0; [|discriminate].
    apply bool_decide_eq_true in Hr0 as ->. injection Hstep as <-.
    split; [reflexivity|]. split; [eauto|].
    split; [by destruct r|]. split; [|auto].
    intros r' Hne. destruct r, r'; try reflexivity; contradiction.
Qed.

(** C6, as the code has it. [Close] is single-use: a [Close] call on a
    service whose [done] channel is still open closes it without a panic and
    goes on to wait for the loops; a [Close] call on a service whose channel
    is closed, as it is while a first [Close] waits and once it has
    returned, panics at [close(s.done)], which nothing guards. *)
Theorem Close_is_single_use s :
  reachable s -> panicked s = false ->
  exists s', step ActClose s = Some s' /\
    (done s = false -> panicked s' = false /\ done s' = true /\ closing s' = true) /\
    (done s = true -> panicked s' = true) /\
    (closing s = true \/ 0 < closed s -> done s = true).
Proof.
  intros Hreach Hp. destruct (reachable_inv s Hreach) as (_ & Hdone & _).
  exists (Close_call s). unfold step. rewrite Hp.
  split; [reflexivity|]. unfold Close_call. simpl.
  split; [|split].
  - intros ->. simpl. auto.
  - intros ->. reflexivity.
  - exact Hdone.
Qed.

End LifecycleFacts.

Section LifecycleExamples.
Import Fixtures.

(** Scenario 5 of the specification: [Close] right after [Open], before any
    tick; both loops leave at their first [select] without a sweep. *)
Example Close_right_after_Open :
  option_map (fun s => (loop ShardGroups s, loop Shards s, closed s, trace s))
    (run [ActClose; ActLoop ShardGroups MvEnter; ActLoop Shards MvEnter;
          ActLoop Shards MvReturn; ActLoop ShardGroups MvReturn; ActCloseReturn]
         opened) =
  Some (Exited, Exited, 1, [EvLog (LogStarting hour); EvLog LogTerminating]).
Proof. vm_compute. reflexivity. Qed.

(** [Close] cannot return while a loop is still running. *)
Example Close_waits :
  run [ActLoop ShardGroups MvEnter; ActLoop Shards MvEnter; ActClose;
       ActLoop ShardGroups MvReturn; ActCloseReturn] opened = None.
Proof. vm_compute. reflexivity. Qed.

(** Scenario 5 of the specification, with a sweep in flight: once [Close]
    has returned both loops are gone, and later requests to the debug
    endpoint and a further [Close] call make no call. *)
Lemma clean_shutdown_witness :
  (loop ShardGroups closedService = Exited /\ loop Shards closedService = Exited) /\
  (forall s', run [ActRequest; ActRequest; ActClose] closedService = Some s' ->
     collaboratorCalls (trace s') = collaboratorCalls (trace closedService)).
Proof.
  destruct clean_shutdown as [Hclean _].
  assert (Hreach : reachable closedService)
    by (exists hour, world0, shutdown; vm_compute; reflexivity).
  assert (Hclosed : 0 < closed closedService) by (vm_compute; lia).
  destruct (Hclean closedService Hreach Hclosed) as [Hexited Hafter].
  split; [exact Hexited|]. intros s' Hrun. by apply (Hafter _ _ Hrun).
Defined.

(** Against C5 as the specification words it: there is one hook, not one
    per reaper, and it does not reach the shard loop independently of the
    shard-group loop. While the shard-group loop is in a sweep, the request
    waits on its first send, and the shard loop, although it waits in its
    [select], cannot be triggered. *)
Lemma enforce_retention_not_independent :
  length (AddDebugHandler) = 1 /\
  run busy opened = Some busyService /\
  loop ShardGroups busyService = Sweeping /\
  loop Shards busyService = Selecting /\
  handlers busyService = [[ShardGroups; Shards]] /\
  forall i, step (ActLoop Shards (MvForce i)) busyService = None.
Proof.
  split; [reflexivity|]. split; [vm_compute; reflexivity|].
  split; [vm_compute; reflexivity|]. split; [vm_compute; reflexivity|].
  split; [vm_compute; reflexivity|].
  intros [|[|i]]; vm_compute; reflexivity.
Qed.

(** Once the shard-group loop is back in its [select] the handoffs go
    through, first to it and then to the shard loop. *)
Lemma force_trigger_handoff_witness :
  exists s1 s2,
    run [ActLoop ShardGroups MvSweep; ActLoop ShardGroups (MvForce 0)] busyService = Some s1 /\
    loop ShardGroups s1 = Sweeping /\ handlers s1 = [[Shards]] /\
    step (ActLoop Shards (MvForce 0)) s1 = Some s2 /\
    loop Shards s2 = Sweeping /\ trace s2 = trace s1.
Proof.
  destruct (run [ActLoop ShardGroups MvSweep; ActLoop ShardGroups (MvForce 0)] busyService)
    as [s1|] eqn:Hrun; [|vm_compute in Hrun; discriminate].
  assert (Hs1 : loop ShardGroups s1 = Sweeping /\ handlers s1 = [[Shards]] /\
                panicked s1 = false /\ loop Shards s1 = Selecting).
  { vm_compute in Hrun. injection Hrun as <-. repeat split. }
  destruct Hs1 as (HG & Hh & Hp & HS).
  destruct (force_trigger_handoff s1) as (_ & _ & Hready & Htaken).
  destruct (Hready Shards 0 [] Hp) as [s2 Hs2]; [by rewrite Hh | exact HS |].
  destruct (Htaken Shards 0 s2 Hs2) as (_ & _ & HS2 & _ & Ht & _).
  exists s1, s2. repeat split; assumption.
Defined.

(** Against C6 as the specification words it: a second [Close], on the
    service that a first [Close] has closed, panics. *)
Lemma second_Close_panics :
  run shutdown opened = Some closedService /\
  closed closedService = 1 /\ panicked closedService = false /\
  exists s', step ActClose closedService = Some s' /\ panicked s' = true.
Proof.
  split; [vm_compute; reflexivity|]. split; [vm_compute; reflexivity|].
  split; [vm_compute; reflexivity|].
  eexists. split; vm_compute; reflexivity.
Qed.

(** The first [Close] on the opened service does not panic; the second, on
    the closed one, does. *)
Lemma Close_is_single_use_witness :
  (exists s', step ActClose opened = Some s' /\ panicked s' = false) /\
  (exists s', step ActClose closedService = Some s' /\ panicked s' = true).
Proof.
  split.
  - assert (Hopened : reachable opened) by (exists hour, world0, []; reflexivity).
    destruct (Close_is_single_use opened Hopened eq_refl)
      as (s' & Hstep & Hfirst & _).
    exists s'. split; [exact Hstep|]. by apply Hfirst.
  - assert (Hclosed : reachable closedService)
      by (exists hour, world0, shutdown; vm_compute; reflexivity).
    destruct (Close_is_single_use closedService Hclosed eq_refl)
      as (s' & Hstep & _ & Hsecond & _).
    exists s'. split; [exact Hstep|]. by apply Hsecond.
Defined.

End LifecycleExamples.

(** * Further properties of the code *)

(** ** Rows: keys, series identity and order *)

Section RowsFacts.
Import Models.
Context {H : Type} `{InlineFNV64a H} {I : Type}.

Implicit Types (z o : Row I) (rows : list (Row I)).

Lemma map_keys_ranged {V} (m : gmap string V) : rangesOver (map_to_list m).*1 m.
Proof. unfold rangesOver. reflexivity. Qed.

(** The hash does not see the order of ranging. *)
Lemma tagsHash_ranged z (r r' : list string) :
  rangesOver r (Tags z) -> rangesOver r' (Tags z) -> tagsHash z r = tagsHash z r'.
Proof.
  intros Hr Hr'. unfold tagsHash.
  by rewrite (tagsKeys_sorted z r Hr), (tagsKeys_sorted z r' Hr').
Qed.

(** X1. [tagsKeys] returns the keys of [Tags], each once, in strictly
    ascending order, whatever order the map is ranged over; for a row
    without tags it returns the empty slice. *)
Theorem tagsKeys_keys_ascending z (ranged : list string) :
  rangesOver ranged (Tags z) ->
  StronglySorted string_lt (tagsKeys z ranged) /\
  NoDup (tagsKeys z ranged) /\
  (forall k, k ∈ tagsKeys z ranged <-> is_Some (Tags z !! k)) /\
  length (tagsKeys z ranged) = size (Tags z) /\
  (Tags z = ∅ -> tagsKeys z ranged = []).
Proof.
  intros Hr. unfold tagsKeys. rewrite collectKeys_ranged.
  assert (Hnd : NoDup ranged).
  { unfold rangesOver in Hr. rewrite Hr. apply NoDup_fst_map_to_list. }
  assert (Hperm : sort_Strings ranged ≡ₚ (map_to_list (Tags z)).*1).
  { unfold sort_Strings. by rewrite merge_sort_Permutation. }
  split; [by apply sort_Strings_ascending|].
  split; [by rewrite Hperm; apply NoDup_fst_map_to_list|].
  split; [|split].
  - intros k. rewrite Hperm, list_elem_of_fmap. split.
    + intros ([k' v] & -> & Hin). apply elem_of_map_to_list in Hin. eauto.
    + intros [v Hv]. exists (k, v). split; [reflexivity|].
      by apply elem_of_map_to_list.
  - rewrite Hperm, length_fmap. apply length_map_to_list.
  - intros Hempty. apply Permutation_nil_r. rewrite Hperm, Hempty.
    by rewrite map_to_list_empty.
Qed.

Lemma SameSeries_true z o (rz ro : list string) :
  SameSeries z o rz ro = true <-> tagsHash z rz = tagsHash o ro /\ Name z = Name o.
Proof.
  unfold SameSeries. rewrite andb_true_iff, !bool_decide_eq_true. reflexivity.
Qed.

(** X2. [SameSeries] is an equivalence on rows that refines equality of
    names: a row is in its own series, two rows in the series of a third
    are in each other's, rows of one series have one name, and rows with
    the same name and the same tags are of one series; the answer never
    depends on how the maps are ranged over. *)
Theorem SameSeries_equivalence z o p :
  (forall b b', SameSeriesReturns z o b -> SameSeriesReturns z o b' -> b = b') /\
  SameSeriesReturns z z true /\
  (SameSeriesReturns z o true -> SameSeriesReturns o p true ->
   SameSeriesReturns z p true) /\
  (SameSeriesReturns z o true -> Name z = Name o) /\
  (Name z = Name o -> Tags z = Tags o -> SameSeriesReturns z o true).
Proof.
  assert (Hcanon : forall (a b : Row I) ra rb,
    rangesOver ra (Tags a) -> rangesOver rb (Tags b) ->
    SameSeries a b ra rb =
    SameSeries a b (map_to_list (Tags a)).*1 (map_to_list (Tags b)).*1).
  { intros a b ra rb Ha Hb. unfold SameSeries.
    rewrite (tagsHash_ranged a ra _ Ha (map_keys_ranged _)).
    rewrite (tagsHash_ranged b rb _ Hb (map_keys_ranged _)). reflexivity. }
  split; [|split; [|split; [|split]]].
  - intros b b' (rz & ro & Hz & Ho & <-) (rz' & ro' & Hz' & Ho' & <-).
    by rewrite (Hcanon z o rz ro), (Hcanon z o rz' ro').
  - exists (map_to_list (Tags z)).*1, (map_to_list (Tags z)).*1.
    split; [apply map_keys_ranged|]. split; [apply map_keys_ranged|].
    by apply SameSeries_true.
  - intros (rz & ro & Hz & Ho & Hzo) (ro' & rp & Ho' & Hp & Hop).
    exists rz, rp. split; [assumption|]. split; [assumption|].
    apply SameSeries_true in Hzo as [Hh1 Hn1]. apply SameSeries_true in Hop as [Hh2 Hn2].
    apply SameSeries_true. split; [|congruence].
    rewrite Hh1, (tagsHash_ranged o ro ro' Ho Ho'). exact Hh2.
  - intros (rz & ro & _ & _ & Hzo). by apply SameSeries_true in Hzo as [_ ?].
  - intros Hn Ht. exists (map_to_list (Tags z)).*1, (map_to_list (Tags o)).*1.
    split; [apply map_keys_ranged|]. split; [apply map_keys_ranged|].
    apply SameSeries_true. split; [|assumption]. unfold tagsHash, tagsKeys.
    by rewrite Ht.
Qed.

(** X3. Rows without tags are of one series exactly when they have one
    name: [tagsHash] of an empty or nil [Tags] map writes nothing into the
    hash. *)
Theorem SameSeries_without_tags z o (rz ro : list string) :
  Tags z = ∅ -> Tags o = ∅ ->
  rangesOver rz (Tags z) -> rangesOver ro (Tags o) ->
  tagsHash z rz = Sum64 NewInlineFNV64a /\
  SameSeries z o rz ro = bool_decide (Name z = Name o).
Proof.
  intros Hz Ho Hrz Hro.
  assert (Hempty : forall (a : Row I) ra,
    Tags a = ∅ -> rangesOver ra (Tags a) -> tagsHash a ra = Sum64 NewInlineFNV64a).
  { intros a ra Ha Hra. unfold tagsHash.
    rewrite (tagsKeys_sorted a ra Hra), Ha.
    rewrite map_to_list_empty. reflexivity. }
  split; [by apply Hempty|]. unfold SameSeries.
  rewrite (Hempty z rz Hz Hrz), (Hempty o ro Ho Hro).
  rewrite bool_decide_eq_true_2 by reflexivity. reflexivity.
Qed.

(** *** [Rows] as a [sort.Interface] *)

Lemma index_None rows (i : Z) :
  index rows i = None <-> ~ (0 <= i < Len rows)%Z.
Proof.
  unfold index, Len. destruct (i <? 0)%Z eqn:Hi.
  - apply Z.ltb_lt in Hi. split; [lia|reflexivity].
  - apply Z.ltb_ge in Hi. rewrite lookup_ge_None. lia.
Qed.

Lemma index_Some rows (i : Z) :
  is_Some (index rows i) <-> (0 <= i < Len rows)%Z.
Proof.
  rewrite <- not_eq_None_Some, index_None. split; [|tauto].
  intros Hnn. destruct (decide (0 <= i < Len rows)%Z); tauto.
Qed.

Lemma index_lookup rows (i : Z) (zi : Row I) :
  index rows i = Some zi -> rows !! Z.to_nat i = Some zi /\ (0 <= i)%Z.
Proof.
  unfold index. destruct (i <? 0)%Z eqn:Hi; [discriminate|].
  apply Z.ltb_ge in Hi. auto.
Qed.

(** What [Less] compares, with the hashes taken in the order of the keys. *)
Lemma LessReturns_spec rows (i j : Z) (b : bool) :
  LessReturns rows i j b <->
  exists zi zj,
    index rows i = Some zi /\ index rows j = Some zj /\
    b = if bool_decide (Name zi ≠ Name zj)
        then String.ltb (Name zi) (Name zj)
        else (tagsHash zi (map_to_list (Tags zi)).*1 <?
              tagsHash zj (map_to_list (Tags zj)).*1)%N.
Proof.
  split.
  - intros (zi & zj & ri & rj & Hi & Hj & Hri & Hrj & Hless).
    exists zi, zj. split; [assumption|]. split; [assumption|].
    unfold Less in Hless. rewrite Hi, Hj in Hless. simpl in Hless.
    rewrite (tagsHash_ranged zi ri _ Hri (map_keys_ranged _)) in Hless.
    rewrite (tagsHash_ranged zj rj _ Hrj (map_keys_ranged _)) in Hless.
    destruct (bool_decide _); congruence.
  - intros (zi & zj & Hi & Hj & ->).
    exists zi, zj, (map_to_list (Tags zi)).*1, (map_to_list (Tags zj)).*1.
    split; [assumption|]. split; [assumption|].
    split; [apply map_keys_ranged|]. split; [apply map_keys_ranged|].
    unfold Less. rewrite Hi, Hj. simpl. by destruct (bool_decide _).
Qed.

Lemma string_ltb_total (a b : string) :
  a ≠ b -> String.ltb a b = true \/ String.ltb b a = true.
Proof.
  intros Hne. destruct (string_le_total a b) as [Hab|Hba].
  - apply string_le_spec in Hab as [->|Hlt]; [contradiction|]. by left.
  - apply string_le_spec in Hba as [->|Hlt]; [contradiction|]. by right.
Qed.

Lemma string_ltb_asym (a b : string) :
  String.ltb a b = true -> String.ltb b a = true -> False.
Proof.
  intros Hab Hba. apply (string_lt_irrefl a).
  by apply (string_lt_trans a b a).
Qed.

(** X4. [Less] is a strict weak order on the rows of the slice: it is
    irreflexive, asymmetric and transitive, and two rows that it leaves
    unordered both ways are exactly the rows of one series; what it returns
    does not depend on how the maps are ranged over. It panics exactly when
    an index is out of range. *)
Theorem Less_strict_weak_order rows (i j k : Z) :
  (forall ri rj, Less rows i j ri rj = None <-> ~ inRange rows i j) /\
  (forall b b', LessReturns rows i j b -> LessReturns rows i j b' -> b = b') /\
  ~ LessReturns rows i i true /\
  (LessReturns rows i j true -> LessReturns rows j i false) /\
  (LessReturns rows i j true -> LessReturns rows j k true ->
   LessReturns rows i k true) /\
  (forall zi zj, index rows i = Some zi -> index rows j = Some zj ->
     (LessReturns rows i j false /\ LessReturns rows j i false <->
      SameSeriesReturns zi zj true)).
Proof.
  split; [|split; [|split; [|split; [|split]]]].
  - intros ri rj. unfold Less, inRange.
    destruct (index rows i) as [zi|] eqn:Hi; simpl.
    + destruct (index rows j) as [zj|] eqn:Hj; simpl.
      * assert (is_Some (index rows i)) as Hi' by eauto.
        assert (is_Some (index rows j)) as Hj' by eauto.
        apply index_Some in Hi'. apply index_Some in Hj'.
        destruct (bool_decide _); split; (discriminate || tauto).
      * apply index_None in Hj. tauto.
    + apply index_None in Hi. tauto.
  - intros b b' Hb Hb'. apply LessReturns_spec in Hb as (zi & zj & Hi & Hj & ->).
    apply LessReturns_spec in Hb' as (zi' & zj' & Hi' & Hj' & ->).
    assert (zi' = zi) as -> by congruence. assert (zj' = zj) as -> by congruence.
    reflexivity.
  - intros Hii. apply LessReturns_spec in Hii as (zi & zi' & Hi & Hi' & Hb).
    assert (zi' = zi) as -> by congruence.
    rewrite bool_decide_eq_false_2 in Hb by (intros Hne; by apply Hne).
    symmetry in Hb. apply N.ltb_lt in Hb. lia.
  - intros Hij. apply LessReturns_spec in Hij as (zi & zj & Hi & Hj & Hb).
    apply LessReturns_spec. exists zj, zi. split; [assumption|]. split; [assumption|].
    symmetry in Hb. destruct (decide (Name zi = Name zj)) as [Heq|Hne].
    + rewrite bool_decide_eq_false_2 in Hb by tauto.
      rewrite bool_decide_eq_false_2 by (rewrite Heq; tauto).
      apply N.ltb_lt in Hb. symmetry. apply N.ltb_ge. lia.
    + rewrite bool_decide_eq_true_2 in Hb by assumption.
      rewrite bool_decide_eq_true_2 by congruence.
      destruct (String.ltb (Name zj) (Name zi)) eqn:Hji; [|reflexivity].
      exfalso. by eapply string_ltb_asym.
  - intros Hij Hjk.
    apply LessReturns_spec in Hij as (zi & zj & Hi & Hj & Hb).
    apply LessReturns_spec in Hjk as (zj' & zk & Hj' & Hk & Hb').
    assert (zj' = zj) as -> by congruence.
    apply LessReturns_spec. exists zi, zk. split; [assumption|]. split; [assumption|].
    symmetry in Hb, Hb'.
    destruct (decide (Name zi = Name zj)) as [Hij|Hij];
      destruct (decide (Name zj = Name zk)) as [Hjk|Hjk].
    + rewrite bool_decide_eq_false_2 in Hb, Hb' by tauto.
      rewrite bool_decide_eq_false_2 by (rewrite Hij, Hjk; tauto).
      apply N.ltb_lt in Hb, Hb'. symmetry. apply N.ltb_lt. lia.
    + rewrite bool_decide_eq_false_2 in Hb by tauto.
      rewrite bool_decide_eq_true_2 in Hb' by assumption.
      rewrite bool_decide_eq_true_2 by congruence. by rewrite Hij.
    + rewrite bool_decide_eq_true_2 in Hb by assumption.
      rewrite bool_decide_eq_false_2 in Hb' by tauto.
      rewrite bool_decide_eq_true_2 by congruence. by rewrite <- Hjk.
    + rewrite bool_decide_eq_true_2 in Hb, Hb' by assumption.
      assert (String.ltb (Name zi) (Name zk) = true) as Hik
        by (by apply (string_lt_trans _ (Name zj))).
      rewrite bool_decide_eq_true_2; [by rewrite Hik|].
      intros Heq. rewrite Heq in Hik. by apply (string_lt_irrefl (Name zk)).
  - intros zi zj Hi Hj. split.
    + intros [Hij Hji].
      apply LessReturns_spec in Hij as (zi1 & zj1 & Hi1 & Hj1 & Hb).
      apply LessReturns_spec in Hji as (zj2 & zi2 & Hj2 & Hi2 & Hb').
      assert (zi1 = zi) as -> by congruence. assert (zi2 = zi) as -> by congruence.
      assert (zj1 = zj) as -> by congruence. assert (zj2 = zj) as -> by congruence.
      exists (map_to_list (Tags zi)).*1, (map_to_list (Tags zj)).*1.
      split; [apply map_keys_ranged|]. split; [apply map_keys_ranged|].
      apply SameSeries_true. symmetry in Hb, Hb'.
      destruct (decide (Name zi = Name zj)) as [Heq|Hne].
      * rewrite bool_decide_eq_false_2 in Hb by tauto.
        rewrite bool_decide_eq_false_2 in Hb' by (rewrite Heq; tauto).
        apply N.ltb_ge in Hb, Hb'. split; [lia|assumption].
      * rewrite bool_decide_eq_true_2 in Hb by assumption.
        rewrite bool_decide_eq_true_2 in Hb' by congruence.
        destruct (string_ltb_total _ _ Hne); congruence.
    + intros (rz & ro & Hrz & Hro & Hsame).
      apply SameSeries_true in Hsame as [Hh Hn].
      rewrite (tagsHash_ranged zi rz _ Hrz (map_keys_ranged _)) in Hh.
      rewrite (tagsHash_ranged zj ro _ Hro (map_keys_ranged _)) in Hh.
      split; apply LessReturns_spec; [exists zi, zj|exists zj, zi];
        (split; [assumption|]); (split; [assumption|]);
        rewrite bool_decide_eq_false_2 by (rewrite Hn; tauto);
        rewrite Hh; symmetry; apply N.ltb_irrefl.
Qed.

(** X5. [Swap] exchanges the rows at two indices and nothing else: the
    slice keeps its length and its rows, every other index keeps its row,
    and a second [Swap] of the same indices restores the slice. Like
    [Less], it panics exactly when an index is out of range. *)
Theorem Swap_exchanges rows (i j : Z) :
  (Swap rows i j = None <-> ~ inRange rows i j) /\
  (forall rows', Swap rows i j = Some rows' ->
     Len rows' = Len rows /\ rows' ≡ₚ rows /\
     index rows' i = index rows j /\ index rows' j = index rows i /\
     (forall k, k ≠ i -> k ≠ j -> index rows' k = index rows k) /\
     Swap rows' i j = Some rows).
Proof.
  unfold Swap, inRange.
  destruct (index rows i) as [zi|] eqn:Hi; simpl;
    [|apply index_None in Hi; split; [tauto|discriminate]].
  destruct (index rows j) as [zj|] eqn:Hj; simpl;
    [|apply index_None in Hj; split; [tauto|discriminate]].
  assert (Hi' : (0 <= i < Len rows)%Z) by (apply index_Some; eauto).
  assert (Hj' : (0 <= j < Len rows)%Z) by (apply index_Some; eauto).
  split; [split; [discriminate|tauto]|].
  intros rows' [= <-].
  apply index_lookup in Hi as [Hi Hi0]. apply index_lookup in Hj as [Hj Hj0].
  set (ni := Z.to_nat i) in *. set (nj := Z.to_nat j) in *.
  assert (Hlen : length (<[nj:=zi]> (<[ni:=zj]> rows)) = length rows)
    by (by rewrite !length_insert).
  assert (Hni : ni < length rows) by (apply lookup_lt_is_Some; eauto).
  assert (Hnj : nj < length rows) by (apply lookup_lt_is_Some; eauto).
  assert (Hati : <[nj:=zi]> (<[ni:=zj]> rows) !! ni = Some zj).
  { destruct (decide (nj = ni)) as [Heq|Hne].
    - rewrite Heq in *. rewrite list_lookup_insert_eq by (by rewrite length_insert).
      congruence.
    - rewrite list_lookup_insert_ne by assumption. by apply list_lookup_insert_eq. }
  assert (Hatj : <[nj:=zi]> (<[ni:=zj]> rows) !! nj = Some zi)
    by (apply list_lookup_insert_eq; by rewrite length_insert).
  assert (Hidx : forall (l : list (Row I)) (k : Z), (0 <= k)%Z ->
            index l k = l !! Z.to_nat k).
  { intros l k Hk. unfold index. by rewrite (proj2 (Z.ltb_ge k 0) Hk). }
  split; [unfold Len; by rewrite Hlen|].
  split; [by apply Permutation_insert_swap|].
  split; [rewrite !Hidx by assumption; fold ni nj; congruence|].
  split; [rewrite !Hidx by assumption; fold ni nj; congruence|].
  split.
  - intros k Hki Hkj. unfold index. destruct (k <? 0)%Z eqn:Hk; [reflexivity|].
    apply Z.ltb_ge in Hk.
    rewrite !list_lookup_insert_ne by (subst ni nj; lia). reflexivity.
  - rewrite !Hidx by assumption. fold ni nj. rewrite Hati, Hatj. simpl. f_equal.
    apply list_eq. intros n.
    destruct (decide (n = nj)) as [->|Hnnj].
    + rewrite list_lookup_insert_eq by (by rewrite !length_insert). congruence.
    + rewrite list_lookup_insert_ne by auto.
      destruct (decide (n = ni)) as [->|Hnni].
      * rewrite list_lookup_insert_eq by (by rewrite !length_insert). congruence.
      * by rewrite !list_lookup_insert_ne by auto.
Qed.

End RowsFacts.

(** ** The keys and the body of [/debug/vars] *)

Lemma string_append_cons (x : Ascii.ascii) (a b : string) :
  String x a +:+ b = String x (a +:+ b).
Proof. reflexivity. Qed.

Lemma string_append_assoc (a b c : string) : (a +:+ b) +:+ c = a +:+ b +:+ c.
Proof.
  induction a as [|x a IH]; [reflexivity|].
  by rewrite !string_append_cons, IH.
Qed.

Lemma string_append_nil_r (a : string) : a +:+ "" = a.
Proof.
  induction a as [|x a IH]; [reflexivity|].
  by rewrite string_append_cons, IH.
Qed.

Section ExpvarKeyFacts.
Import Debug.
Context {Statistic : Type}.
Variable stat_Name : Statistic -> string.
Variable stat_Tags : Statistic -> gmap string string.

Abbreviation statKey' := (statKey stat_Name stat_Tags).

(** X6. The key of a statistic is its name followed by colon-led tag
    values: it is the bare name exactly when the statistic has none of the
    tags [path], [bind] and [database], and otherwise the name is followed
    by a colon. *)
Theorem statKey_name_prefix (s : Statistic) :
  exists suffix,
    statKey' s = stat_Name s +:+ suffix /\
    (stat_Tags s !! "path" = None -> stat_Tags s !! "bind" = None ->
     stat_Tags s !! "database" = None -> suffix = "") /\
    (is_Some (stat_Tags s !! "path") \/ is_Some (stat_Tags s !! "bind") \/
     is_Some (stat_Tags s !! "database") -> exists rest, suffix = ":" +:+ rest).
Proof.
  unfold Debug.statKey.
  destruct (stat_Tags s !! "path") as [path|] eqn:Hpath.
  { destruct (stat_Tags s !! "id") as [id|];
      eexists; (split; [rewrite ?string_append_assoc; reflexivity|]);
      (split; [discriminate|]); intros _; simpl; eauto. }
  destruct (stat_Tags s !! "bind") as [bind|] eqn:Hbind.
  { destruct (stat_Tags s !! "proto") as [proto|];
      eexists; (split; [rewrite ?string_append_assoc; reflexivity|]);
      (split; [discriminate|]); intros _; simpl; eauto. }
  destruct (stat_Tags s !! "database") as [database|] eqn:Hdb.
  { destruct (stat_Tags s !! "retention_policy") as [rp|];
      [destruct (stat_Tags s !! "name") as [name|];
       destruct (stat_Tags s !! "destination") as [dest|]|];
      eexists; (split; [rewrite ?string_append_assoc; reflexivity|]);
      (split; [discriminate|]); intros _; simpl; eauto. }
  exists "". split; [by rewrite string_append_nil_r|]. split; [reflexivity|].
  intros [[? ?]|[[? ?]|[? ?]]]; discriminate.
Qed.

(** X7. The key does not tell statistics apart: a colon inside the [path]
    tag reads like an [id] tag, and a [bind] tag without [proto] reads like
    a [database] tag without [retention_policy]. Two such statistics of one
    name get the same key. *)
Theorem statKey_collisions (s1 s2 : Statistic) :
  stat_Name s1 = stat_Name s2 ->
  (forall path id,
     stat_Tags s1 !! "path" = Some path -> stat_Tags s1 !! "id" = Some id ->
     stat_Tags s2 !! "path" = Some (path +:+ ":" +:+ id) ->
     stat_Tags s2 !! "id" = None ->
     statKey' s1 = statKey' s2) /\
  (forall addr,
     stat_Tags s1 !! "path" = None -> stat_Tags s1 !! "bind" = Some addr ->
     stat_Tags s1 !! "proto" = None ->
     stat_Tags s2 !! "path" = None -> stat_Tags s2 !! "bind" = None ->
     stat_Tags s2 !! "database" = Some addr ->
     stat_Tags s2 !! "retention_policy" = None ->
     statKey' s1 = statKey' s2).
Proof.
  intros Hname. split.
  - intros path id Hp1 Hi1 Hp2 Hi2. unfold Debug.statKey.
    rewrite Hp1, Hi1, Hp2, Hi2, Hname. by rewrite !string_append_assoc.
  - intros addr Hp1 Hb1 Hpr1 Hp2 Hb2 Hd2 Hrp2. unfold Debug.statKey.
    by rewrite Hp1, Hb1, Hpr1, Hp2, Hb2, Hd2, Hrp2, Hname.
Qed.

End ExpvarKeyFacts.

Section ExpvarBodyFacts.
Import Debug.
Context {Statistic : Type}.
Variable stat_Name : Statistic -> string.
Variable stat_Tags : Statistic -> gmap string string.
Variable json_Marshal : option Statistic -> option string.
Variable json_MarshalError : string -> string.
Variable bytes_TrimSpace : string -> string.

Abbreviation statKey' := (statKey stat_Name stat_Tags).
Abbreviation buildStatMap' := (buildStatMap stat_Name stat_Tags).
Abbreviation lastWithKey' := (lastWithKey stat_Name stat_Tags).
Abbreviation emitKey' := (emitKey json_Marshal bytes_TrimSpace).
Abbreviation serveExpvar' :=
  (serveExpvar stat_Name stat_Tags json_Marshal json_MarshalError bytes_TrimSpace).
Abbreviation entryOf statMap :=
  (fun key : string =>
     out ← json_Marshal (statMap !! key); Some (key, bytes_TrimSpace out)).

(** After the first key every entry written is led by a comma line. *)
Lemma emitKey_later_keys (statMap : gmap string Statistic) (keys : list string)
    (f : nat -> string -> list Output) :
  (forall i key, exists idx, f i key = emitKey' statMap (S idx) key) ->
  mjoin (imap f keys) =
  e ← omap (entryOf statMap) keys; Fprintln "," :: entryOutput e.
Proof.
  revert f. induction keys as [|key keys IH]; intros f Hf; [reflexivity|].
  rewrite imap_cons. simpl mjoin. rewrite IH by (intros i k; apply (Hf (S i) k)).
  destruct (Hf 0 key) as [idx ->]. unfold Debug.emitKey. simpl omap.
  destruct (json_Marshal (statMap !! key)) as [out|]; reflexivity.
Qed.

(** The response, from the least key and the keys after it. *)
Lemma serveExpvar_body (stats : list Statistic) (ranged : list string) :
  serveExpvar' (inl stats) ranged =
  [HeaderSet "Content-Type" "application/json; charset=utf-8"; Fprintln "{"] ++
  match sort_Strings ranged with
  | [] => []
  | k0 :: rest =>
      emitKey' (buildStatMap' stats) 0 k0 ++
      (e ← omap (entryOf (buildStatMap' stats)) rest; Fprintln "," :: entryOutput e)
  end ++ [Fprintln (LF +:+ "}")].
Proof.
  unfold Debug.serveExpvar. rewrite collectKeys_ranged.
  destruct (sort_Strings ranged) as [|k0 rest]; [reflexivity|].
  rewrite imap_cons. simpl mjoin.
  rewrite (emitKey_later_keys (buildStatMap' stats) rest)
    by (intros i key; exists i; reflexivity).
  reflexivity.
Qed.

Lemma sorted_keys_lookup (stats : list Statistic) (ranged : list string) (key : string) :
  rangesOver ranged (buildStatMap' stats) ->
  key ∈ sort_Strings ranged <-> is_Some (buildStatMap' stats !! key).
Proof.
  intros Hr. unfold sort_Strings. rewrite merge_sort_Permutation, Hr.
  rewrite list_elem_of_fmap. split.
  - intros ([k s] & -> & Hin). apply elem_of_map_to_list in Hin. eauto.
  - intros [s Hs]. exists (key, s). split; [reflexivity|].
    by apply elem_of_map_to_list.
Qed.

Lemma lastWithKey_elem_of (stats : list Statistic) (key : string) (s : Statistic) :
  lastWithKey' stats key s -> s ∈ stats /\ statKey' s = key.
Proof.
  intros (before & after & -> & Hkey & _). split; [|assumption].
  apply elem_of_app. right. left.
Qed.

(** X8. When every statistic can be marshalled, the body that [serveExpvar]
    writes is a well-formed list: an opening brace line, the entries with
    one comma line between each two of them, and the closing brace; with no
    statistics at all, the two brace lines alone. *)
Theorem serveExpvar_separated (stats : list Statistic) (ranged : list string) :
  rangesOver ranged (buildStatMap' stats) ->
  (forall s, s ∈ stats -> is_Some (json_Marshal (Some s))) ->
  let out := serveExpvar' (inl stats) ranged in
  out =
    [HeaderSet "Content-Type" "application/json; charset=utf-8"; Fprintln "{"] ++
    joinEntries (emitted out) ++ [Fprintln (LF +:+ "}")] /\
  (stats = [] -> emitted out = []).
Proof.
  intros Hr Hall out. subst out.
  rewrite (serveExpvar_emitted stat_Name stat_Tags json_Marshal json_MarshalError
             bytes_TrimSpace stats ranged).
  split.
  - rewrite serveExpvar_body at 1.
    pose proof (sorted_keys_lookup stats ranged) as Hkeys.
    destruct (sort_Strings ranged) as [|k0 rest]; [reflexivity|].
    destruct (proj1 (Hkeys k0 Hr)) as [s Hs]; [left|].
    pose proof Hs as Hlast.
    apply (buildStatMap_lookup stat_Name stat_Tags) in Hlast.
    apply lastWithKey_elem_of in Hlast as [Hin _].
    destruct (Hall s Hin) as [o Ho].
    simpl omap. unfold Debug.emitKey. rewrite Hs, Ho. reflexivity.
  - intros ->. assert (sort_Strings ranged = []) as ->; [|reflexivity].
    destruct (sort_Strings ranged) as [|k0 rest] eqn:Hsort; [reflexivity|].
    assert (k0 ∈ sort_Strings ranged) as Hk0 by (rewrite Hsort; left).
    apply (sorted_keys_lookup [] ranged k0 Hr) in Hk0 as [s Hs].
    unfold Debug.buildStatMap in Hs. simpl in Hs. by rewrite lookup_empty in Hs.
Qed.

(** X9. The comma is tied to the position of a key, not to what was
    written: when the statistic under the least key cannot be marshalled
    and some other statistic is written, the first thing after the opening
    brace line is a comma line, before any entry. *)
Theorem serveExpvar_leading_comma (stats : list Statistic) (ranged : list string)
    (k0 : string) (s0 : Statistic) :
  rangesOver ranged (buildStatMap' stats) ->
  lastWithKey' stats k0 s0 ->
  (forall s, s ∈ stats -> string_le k0 (statKey' s)) ->
  json_Marshal (Some s0) = None ->
  let out := serveExpvar' (inl stats) ranged in
  emitted out <> [] ->
  exists rest,
    out = HeaderSet "Content-Type" "application/json; charset=utf-8"
          :: Fprintln "{" :: Fprintln "," :: rest.
Proof.
  intros Hr Hlast Hleast Hfail out. subst out.
  rewrite (serveExpvar_emitted stat_Name stat_Tags json_Marshal json_MarshalError
             bytes_TrimSpace stats ranged).
  rewrite serveExpvar_body.
  pose proof (sorted_keys_lookup stats ranged) as Hkeys.
  assert (Hsorted : StronglySorted string_lt (sort_Strings ranged)).
  { apply sort_Strings_ascending. unfold rangesOver in Hr. rewrite Hr.
    apply NoDup_fst_map_to_list. }
  apply (buildStatMap_lookup stat_Name stat_Tags) in Hlast.
  assert (Hk0 : k0 ∈ sort_Strings ranged) by (apply Hkeys; eauto).
  destruct (sort_Strings ranged) as [|k rest] eqn:Hsort;
    [by apply elem_of_nil in Hk0|].
  assert (k = k0) as ->.
  { apply elem_of_cons in Hk0 as [->|Hin]; [reflexivity|].
    apply StronglySorted_inv in Hsorted as [_ Hall].
    rewrite Forall_forall in Hall. specialize (Hall k0 Hin).
    destruct (proj1 (Hkeys k Hr)) as [s Hs]; [left|].
    apply (buildStatMap_lookup stat_Name stat_Tags) in Hs.
    apply lastWithKey_elem_of in Hs as [Hin' Hkey].
    specialize (Hleast s Hin'). rewrite Hkey in Hleast.
    apply string_le_spec in Hleast as [->|Hlt]; [reflexivity|].
    exfalso. apply (string_lt_irrefl k). by transitivity k0. }
  simpl omap. unfold Debug.emitKey. rewrite Hlast, Hfail. simpl.
  intros Hne. destruct (omap (entryOf (buildStatMap' stats)) rest) as [|e es] eqn:Hom;
    [exfalso; apply Hne; exact Hom|].
  rewrite bind_cons. simpl. eauto.
Qed.

Lemma buildStatMap_size (stats : list Statistic) :
  size (buildStatMap' stats) <= length stats.
Proof.
  induction stats as [|s stats IH] using rev_ind; [reflexivity|].
  rewrite (buildStatMap_snoc stat_Name stat_Tags), length_app. simpl.
  destruct (buildStatMap' stats !! statKey' s) as [s'|] eqn:Hs.
  - rewrite map_size_insert_Some by eauto. lia.
  - rewrite map_size_insert_None by assumption. lia.
Qed.

Lemma length_omap_le {A B} (f : A -> option B) (l : list A) :
  length (omap f l) <= length l.
Proof.
  induction l as [|x l IH]; [reflexivity|].
  change (omap f (x :: l))
    with (match f x with Some y => y :: omap f l | None => omap f l end).
  destruct (f x); cbn [length]; lia.
Qed.

Lemma omap_keys_all {B} (h : string -> option (string * B)) (keys : list string) :
  (forall k, k ∈ keys -> exists b, h k = Some (k, b)) -> (omap h keys).*1 = keys.
Proof.
  induction keys as [|k ks IH]; intros Hh; [reflexivity|].
  change (omap h (k :: ks))
    with (match h k with Some y => y :: omap h ks | None => omap h ks end).
  destruct (Hh k) as [b ->]; [left|].
  rewrite fmap_cons, IH; [reflexivity|]. intros k' Hk'. apply Hh. by right.
Qed.

(** X10. [serveExpvar] never writes more entries than there are keys in
    [statMap], nor than there are statistics; and when the statistics have
    distinct keys and can all be marshalled, it writes one entry for each
    of them. *)
Theorem serveExpvar_entry_count (stats : list Statistic) (ranged : list string) :
  rangesOver ranged (buildStatMap' stats) ->
  let out := serveExpvar' (inl stats) ranged in
  length (emitted out) <= size (buildStatMap' stats) /\
  size (buildStatMap' stats) <= length stats /\
  (NoDup (statKey' <$> stats) ->
   (forall s, s ∈ stats -> is_Some (json_Marshal (Some s))) ->
   (emitted out).*1 ≡ₚ statKey' <$> stats).
Proof.
  intros Hr out. subst out.
  rewrite (serveExpvar_emitted stat_Name stat_Tags json_Marshal json_MarshalError
             bytes_TrimSpace stats ranged).
  assert (Hlen : length (sort_Strings ranged) = size (buildStatMap' stats)).
  { unfold sort_Strings. rewrite merge_sort_Permutation, Hr, length_fmap.
    apply length_map_to_list. }
  split; [rewrite <- Hlen; apply length_omap_le|].
  split; [apply buildStatMap_size|].
  intros Hnd Hall.
  assert (Hsorted : StronglySorted string_lt (sort_Strings ranged)).
  { apply sort_Strings_ascending. unfold rangesOver in Hr. rewrite Hr.
    apply NoDup_fst_map_to_list. }
  pose proof (sorted_keys_lookup stats ranged) as Hkeys.
  assert (Hwritten : (omap (entryOf (buildStatMap' stats)) (sort_Strings ranged)).*1 =
                     sort_Strings ranged).
  { assert (Hin : forall k, k ∈ sort_Strings ranged ->
              is_Some (json_Marshal (buildStatMap' stats !! k))).
    { intros k Hk. apply (Hkeys k Hr) in Hk as [s Hs]. rewrite Hs.
      apply (buildStatMap_lookup stat_Name stat_Tags) in Hs.
      apply lastWithKey_elem_of in Hs as [Hs _]. by apply Hall. }
    apply omap_keys_all. intros k Hk. destruct (Hin k Hk) as [o Ho].
    rewrite Ho. simpl. eauto. }
  rewrite Hwritten. apply NoDup_Permutation.
  - unfold sort_Strings. rewrite merge_sort_Permutation, Hr.
    apply NoDup_fst_map_to_list.
  - exact Hnd.
  - intros k. rewrite (Hkeys k Hr), list_elem_of_fmap. split.
    + intros [s Hs]. apply (buildStatMap_lookup stat_Name stat_Tags) in Hs.
      apply lastWithKey_elem_of in Hs as [Hs Hk]. eauto.
    + intros (s & -> & Hs). apply list_elem_of_split in Hs as (before & after & ->).
      exists s. apply (buildStatMap_lookup stat_Name stat_Tags).
      exists before, after. split; [reflexivity|]. split; [reflexivity|].
      intros s' Hs' Heq. rewrite fmap_app, fmap_cons in Hnd.
      apply NoDup_app in Hnd as (_ & _ & Hnd). apply NoDup_cons in Hnd as [Hnot _].
      apply Hnot. rewrite <- Heq. by apply list_elem_of_fmap_2.
Qed.

End ExpvarBodyFacts.

(** ** Panics and shutdown of the service *)

Section ServiceFacts.
Context {M T C : Type} `{MetaClient M} `{TSDBStore T} `{Clock C}.

Implicit Types (s : Service M T C) (r : Reaper) (a : Action).

Lemma step_loop' r mv s :
  panicked s = false ->
  step (ActLoop r mv) s =
  serviceLoop r (if r is ShardGroups then deleteShardGroups else deleteShards) mv s.
Proof. intros Hp. unfold step. rewrite Hp. by destruct r. Qed.

Lemma run_app acts1 acts2 s :
  run (acts1 ++ acts2) s = run acts1 s ≫= run acts2.
Proof.
  revert s. induction acts1 as [|a acts1 IH]; intros s; [reflexivity|].
  simpl. destruct (step a s); [apply IH|reflexivity].
Qed.

(** A step does not change the check interval, and only [Close] closes
    [s.done]. *)
Lemma step_keeps a s s' :
  step a s = Some s' ->
  checkInterval s' = checkInterval s /\
  (done s = true -> done s' = true) /\
  (a <> ActClose -> done s' = done s).
Proof.
  intros Hstep. unfold step in Hstep. destruct (panicked s); [discriminate|].
  destruct a as [r mv|r| | |]; try destruct r; try destruct mv;
    unfold serviceDeleteShardGroups, serviceDeleteShards, serviceLoop,
      Close_return, loop, tick in Hstep;
    repeat match type of Hstep with
           | context [match ?x with _ => _ end] => destruct x eqn:?
           end;
    try discriminate Hstep; injection Hstep as <-;
    unfold wg_Done, Close_call; simpl;
    repeat match goal with |- context [if ?b then _ else _] => destruct b eqn:? end;
    simpl; repeat split; congruence.
Qed.

(** With a positive interval, and [Close] called only on an open channel,
    a step does not panic. *)
Lemma step_no_panic a s s' :
  lifecycle_inv s -> (0 < checkInterval s)%Z ->
  (a = ActClose -> done s = false) ->
  step a s = Some s' -> panicked s' = false.
Proof.
  intros (_ & _ & Hwg) Hci Hclose Hstep.
  unfold step in Hstep. destruct (panicked s) eqn:Hp; [discriminate|].
  destruct (Hwg eq_refl) as (Hwgv & _ & _). unfold loop in Hwgv.
  apply Z.leb_gt in Hci.
  destruct a as [r mv|r| | |]; try destruct r; try destruct mv;
    unfold serviceDeleteShardGroups, serviceDeleteShards, serviceLoop,
      Close_return, loop, tick in Hstep;
    rewrite ?Hci in Hstep;
    repeat match type of Hstep with
           | context [match ?x with _ => _ end] => destruct x eqn:?
           end;
    try discriminate Hstep; injection Hstep as <-;
    unfold wg_Done, Close_call; simpl; try assumption;
    try (rewrite (Hclose eq_refl); simpl; assumption);
    (destruct (wg s - 1 <? 0)%Z eqn:Hneg; simpl; [|assumption]);
    apply Z.ltb_lt in Hneg; unfold owes in Hwgv;
    destruct (loopShardGroups s), (loopShards s); try discriminate; lia.
Qed.

(** X11. A service opened with a positive check interval and closed at
    most once never panics, whatever its loops, its tickers and the debug
    endpoint do, and however often the deletions fail. *)
Theorem service_never_panics (interval : Z) (w : World M T C) (acts : list Action) s :
  (0 < interval)%Z -> closeCalls acts <= 1 ->
  run acts (Open (NewService interval w)) = Some s ->
  panicked s = false.
Proof.
  intros Hci Hcalls Hrun.
  assert (Hgen : forall acts s0,
    lifecycle_inv s0 -> panicked s0 = false -> (0 < checkInterval s0)%Z ->
    closeCalls acts <= 1 -> (done s0 = true -> closeCalls acts = 0) ->
    run acts s0 = Some s -> panicked s = false).
  { clear. intros acts. induction acts as [|a acts IH];
      intros s0 Hinv Hp Hci Hcalls Hdone Hrun; simpl in Hrun.
    - by injection Hrun as <-.
    - destruct (step a s0) as [s1|] eqn:Hstep; [|discriminate].
      destruct (step_keeps a s0 s1 Hstep) as (Hci1 & Hd1 & Hd2).
      assert (Hclose : a = ActClose -> done s0 = false).
      { intros ->. simpl in Hdone. destruct (done s0); [|reflexivity].
        by specialize (Hdone eq_refl). }
      apply (IH s1); try assumption.
      + by eapply lifecycle_inv_step.
      + by eapply step_no_panic.
      + by rewrite Hci1.
      + destruct a as [? ?|?| | |]; simpl in Hcalls; lia.
      + intros Hdone1. destruct a as [? ?|?| | |]; simpl in Hcalls, Hdone;
          try lia; (rewrite Hd2 in Hdone1 by discriminate); auto. }
  apply (Hgen acts (Open (NewService interval w))); try assumption.
  - apply lifecycle_inv_Open.
  - reflexivity.
  - discriminate.
Qed.

Lemma stalled_step a s s' :
  (checkInterval s <= 0)%Z ->
  loop ShardGroups s = Started -> loop Shards s = Started -> wg s = 2%Z ->
  closed s = 0 -> collaboratorCalls (trace s) = [] ->
  step a s = Some s' ->
  (checkInterval s' <= 0)%Z /\
  loop ShardGroups s' = Started /\ loop Shards s' = Started /\ wg s' = 2%Z /\
  closed s' = 0 /\ collaboratorCalls (trace s') = [] /\
  (forall r, a = ActLoop r MvEnter -> panicked s' = true).
Proof.
  unfold loop. intros Hci HG HS Hwg Hclosed Hcalls Hstep.
  unfold step in Hstep. destruct (panicked s) eqn:Hp; [discriminate|].
  apply Z.leb_le in Hci.
  destruct a as [r mv|r| | |]; try destruct r; try destruct mv;
    unfold serviceDeleteShardGroups, serviceDeleteShards, serviceLoop,
      Close_return, loop, tick in Hstep;
    rewrite ?HG, ?HS, ?Hci, ?Hwg in Hstep; simpl in Hstep;
    try discriminate Hstep;
    try (rewrite andb_false_r in Hstep; discriminate Hstep);
    injection Hstep as <-; apply Z.leb_le in Hci;
    try (repeat split; first [assumption | reflexivity | discriminate]).
  unfold Close_call.
  assert (Hlog : collaboratorCalls
            (trace (perform (logger_Print LogTerminating) s)) = [])
    by (by rewrite collaboratorCalls_perform_log).
  destruct (done _); simpl; repeat split; first [assumption | discriminate].
Qed.

(** X12. A service opened with a check interval that is not positive never
    sweeps: each loop panics in [time.NewTicker] as soon as it runs, no call
    on [MetaClient] or [TSDBStore] is ever made, and a [Close] call never
    returns, since no loop reaches [s.wg.Done()]. *)
Theorem nonpositive_interval_never_sweeps (interval : Z) (w : World M T C)
    (acts : list Action) s :
  (interval <= 0)%Z ->
  run acts (Open (NewService interval w)) = Some s ->
  collaboratorCalls (trace s) = [] /\ closed s = 0 /\
  loop ShardGroups s = Started /\ loop Shards s = Started /\
  (forall r s', step (ActLoop r MvEnter) s = Some s' -> panicked s' = true) /\
  step ActCloseReturn s = None.
Proof.
  intros Hci Hrun.
  assert (Hgen : forall acts s0,
    (checkInterval s0 <= 0)%Z ->
    loop ShardGroups s0 = Started -> loop Shards s0 = Started -> wg s0 = 2%Z ->
    closed s0 = 0 -> collaboratorCalls (trace s0) = [] ->
    run acts s0 = Some s ->
    (checkInterval s <= 0)%Z /\
    loop ShardGroups s = Started /\ loop Shards s = Started /\ wg s = 2%Z /\
    closed s = 0 /\ collaboratorCalls (trace s) = []).
  { clear. intros acts. induction acts as [|a acts IH];
      intros s0 Hci HG HS Hwg Hclosed Hcalls Hrun; simpl in Hrun.
    - injection Hrun as <-. repeat split; assumption.
    - destruct (step a s0) as [s1|] eqn:Hstep; [|discriminate].
      destruct (stalled_step a s0 s1 Hci HG HS Hwg Hclosed Hcalls Hstep)
        as (? & ? & ? & ? & ? & ? & _).
      by apply (IH s1). }
  destruct (Hgen acts (Open (NewService interval w))) as (Hci' & HG & HS & Hwg & Hcl & Hcalls);
    try reflexivity; try assumption.
  repeat split; try assumption.
  - intros r s' Hstep.
    destruct (stalled_step _ s s' Hci' HG HS Hwg Hcl Hcalls Hstep)
      as (_ & _ & _ & _ & _ & _ & Hpanic).
    by apply (Hpanic r).
  - unfold step, Close_return. destruct (panicked s); [reflexivity|].
    rewrite Hwg. by rewrite andb_false_r.
Qed.

End ServiceFacts.
